(** * EmailPro: the [Email] class of [development/Email.py]

    A shallow embedding of the message composer and sender, and the
    proofs of its documented behaviour.

    - Python [str] values are [string]; values that may be [None] are
      [option]s. An attribute that may not have been assigned ([_from])
      is an [option] too.
    - The two uses of the [re] module ([search] with the address
      pattern, [split] with the delimiter patterns) run on a small
      backtracking matcher, which reads the patterns as the source
      writes them.
    - The setters mutate [self] and may raise: they live in a state and
      error monad [M] whose state survives an exception, as a Python
      object does.
    - [send] reads the disk and talks to an SMTP server: it lives in a
      monad [IO] that logs every such access and may raise. The disk,
      the table of [mimetypes] and the answers of the server make the
      [World] it runs in.
    - The message handed to the server is kept as the tree of MIME
      parts that [as_string] serialises. *)

From Stdlib Require Import String Ascii List Bool Arith Lia.
From stdpp Require Import base strings list gmap.

#[local] Arguments String.append _ _ : simpl nomatch.

(** ** Characters and strings *)

Definition LF : ascii := "010"%char.
Definition CR : ascii := "013"%char.
Definition TAB : ascii := "009"%char.
Definition VT : ascii := "011"%char.
Definition FF : ascii := "012"%char.
Definition SP : ascii := " "%char.

(** [c in cs] on Python strings. *)
Fixpoint mem (c : ascii) (cs : string) : bool :=
  match cs with
  | EmptyString => false
  | String d cs' => Ascii.eqb c d || mem c cs'
  end.

(** [all(p(c) for c in s)]. *)
Fixpoint all_chars (p : ascii -> bool) (s : string) : bool :=
  match s with
  | EmptyString => true
  | String c s' => p c && all_chars p s'
  end.

(** [s.count(c)] for a one-character [c]. *)
Fixpoint count_char (c : ascii) (s : string) : nat :=
  match s with
  | EmptyString => 0
  | String d s' => (if Ascii.eqb d c then 1 else 0) + count_char c s'
  end.

(** The text after the first occurrence of [c], [None] when [c] does not
    occur: [s.partition(c)[2]] guarded by [c in s]. *)
Fixpoint after_first (c : ascii) (s : string) : option string :=
  match s with
  | EmptyString => None
  | String d s' => if Ascii.eqb d c then Some s' else after_first c s'
  end.

Definition nonempty (s : string) : bool :=
  match s with EmptyString => false | String _ _ => true end.

(** ** The [re] module, for the pattern syntax of this program *)

Module Re.

(** Things that match exactly one character. *)
Inductive atom : Type :=
| Chr (c : ascii)          (* a literal, also an escaped one such as \. *)
| InSet (cs : string)      (* [...]  *)
| NotInSet (cs : string)   (* [^...] *)
| Space.                   (* \s *)

Inductive item : Type :=
| Bol                      (* ^ *)
| Eol                      (* $ *)
| Eos                      (* \Z *)
| One (a : atom)
| Plus (a : atom)          (* a+, greedy *)
| Star (a : atom).         (* a*, greedy *)

Definition pattern := list item.

(** *** Reading a pattern *)

Inductive pstate : Type :=
| Top                              (* between atoms *)
| Esc                              (* just after a backslash *)
| ClsOpen                          (* just after [ *)
| Cls (neg : bool) (rcs : string). (* inside a class, members reversed *)

Fixpoint rev_string (s acc : string) : string :=
  match s with
  | EmptyString => acc
  | String c s' => rev_string s' (String c acc)
  end.

Definition close_class (neg : bool) (rcs : string) : atom :=
  if neg then NotInSet (rev_string rcs "") else InSet (rev_string rcs "").

Definition unsupported : string := ".?|(){}".

(** [racc] holds the items read so far, last one first. *)
Fixpoint parse (st : pstate) (racc : list item) (s : string)
  : option pattern :=
  match s with
  | EmptyString =>
      match st with
      | Top => Some (rev racc)
      | _ => None
      end
  | String c s' =>
      match st with
      | Top =>
          if Ascii.eqb c "\" then parse Esc racc s'
          else if Ascii.eqb c "[" then parse ClsOpen racc s'
          else if Ascii.eqb c "^" then parse Top (Bol :: racc) s'
          else if Ascii.eqb c "$" then parse Top (Eol :: racc) s'
          else if Ascii.eqb c "+" then
            match racc with
            | One a :: racc' => parse Top (Plus a :: racc') s'
            | _ => None
            end
          else if Ascii.eqb c "*" then
            match racc with
            | One a :: racc' => parse Top (Star a :: racc') s'
            | _ => None
            end
          else if mem c unsupported then None
          else parse Top (One (Chr c) :: racc) s'
      | Esc =>
          if Ascii.eqb c "s" then parse Top (One Space :: racc) s'
          else if Ascii.eqb c "." then parse Top (One (Chr c) :: racc) s'
          else if Ascii.eqb c "Z" then parse Top (Eos :: racc) s'
          else None
      | ClsOpen =>
          if Ascii.eqb c "^" then parse (Cls true "") racc s'
          else if Ascii.eqb c "\" || Ascii.eqb c "-" then None
          else parse (Cls false (String c "")) racc s'
      | Cls neg rcs =>
          if Ascii.eqb c "]" then
            match rcs with
            | EmptyString => parse (Cls neg (String c "")) racc s'
            | _ => parse Top (One (close_class neg rcs) :: racc) s'
            end
          else if Ascii.eqb c "\" || Ascii.eqb c "-" then None
          else parse (Cls neg (String c rcs)) racc s'
      end
  end.

(** [re.compile(p)]; [None] stands for a pattern outside the syntax
    read here. *)
Definition compile (p : string) : option pattern := parse Top [] p.

(** *** Matching *)

(** [\s] without the LOCALE and UNICODE flags. *)
Definition whitespace : string :=
  String SP (String TAB (String LF (String CR (String FF (String VT ""))))).

Definition accepts (a : atom) (c : ascii) : bool :=
  match a with
  | Chr d => Ascii.eqb c d
  | InSet cs => mem c cs
  | NotInSet cs => negb (mem c cs)
  | Space => mem c whitespace
  end.

(** [$] without MULTILINE: at the end of the string, or just before a
    newline that is the last character. *)
Definition at_eol (s : string) : bool :=
  match s with
  | EmptyString => true
  | String c EmptyString => Ascii.eqb c LF
  | _ => false
  end.

(** The matcher walks the subject from a position; [b] tells whether
    that position is the start of the subject, [k] is what is left of
    the pattern. The result is the text after the match that the
    backtracking search finds first. *)
Definition cont := bool -> string -> option string.

(** Greedy repetition: as many characters as possible, giving them
    back one by one while the rest of the pattern fails. *)
Fixpoint many (p : ascii -> bool) (k : cont) (b : bool) (s : string)
  : option string :=
  match s with
  | String c s' =>
      if p c then
        match many p k false s' with
        | Some r => Some r
        | None => k b s
        end
      else k b s
  | EmptyString => k b s
  end.

Fixpoint run (its : pattern) : cont :=
  match its with
  | [] => fun _ s => Some s
  | it :: rest =>
      let k := run rest in
      match it with
      | Bol => fun b s => if b then k b s else None
      | Eol => fun b s => if at_eol s then k b s else None
      | Eos => fun b s => if nonempty s then None else k b s
      | One a => fun _ s =>
          match s with
          | String c s' => if accepts a c then k false s' else None
          | EmptyString => None
          end
      | Plus a => fun _ s =>
          match s with
          | String c s' =>
              if accepts a c then many (accepts a) k false s' else None
          | EmptyString => None
          end
      | Star a => many (accepts a) k
      end
  end.

(** [search]: the leftmost position where the pattern matches. The
    result is the text before the match and the text after it. *)
Fixpoint search_from (its : pattern) (b : bool) (s : string)
  : option (string * string) :=
  match run its b s with
  | Some r => Some ("", r)
  | None =>
      match s with
      | String c s' =>
          match search_from its false s' with
          | Some (pre, r) => Some (String c pre, r)
          | None => None
          end
      | EmptyString => None
      end
  end.

Definition search (its : pattern) (s : string) : option (string * string) :=
  search_from its true s.

(** [re.split]: the pieces between successive matches. A match
    consumes at least one character of what is left, so the loop ends
    after at most [length s] rounds. An empty match does not split:
    the scan moves on by one character (Python 2). *)
Fixpoint split_loop (n : nat) (its : pattern) (b : bool)
    (piece : string) (s : string) : list string :=
  match n with
  | 0 => [piece +:+ s]
  | S n' =>
      match search_from its b s with
      | None => [piece +:+ s]
      | Some (pre, r) =>
          if Nat.ltb (String.length pre + String.length r) (String.length s) then
            (piece +:+ pre) :: split_loop n' its false "" r
          else
            match r with
            | EmptyString => [piece +:+ s]
            | String c r' =>
                split_loop n' its false (piece +:+ pre +:+ String c "") r'
            end
      end
  end.

Definition split (its : pattern) (s : string) : list string :=
  split_loop (S (String.length s)) its true "" s.

End Re.

(** ** Strings: [strip], [join], [basename], [split] *)

(** [s.lstrip(cs)], [s.rstrip(cs)], [s.strip(cs)]. *)
Fixpoint lstrip (cs : string) (s : string) : string :=
  match s with
  | EmptyString => EmptyString
  | String c s' => if mem c cs then lstrip cs s' else s
  end.

Fixpoint rstrip (cs : string) (s : string) : string :=
  match s with
  | EmptyString => EmptyString
  | String c s' =>
      match rstrip cs s' with
      | EmptyString => if mem c cs then EmptyString else String c EmptyString
      | r => String c r
      end
  end.

Definition strip (cs : string) (s : string) : string := rstrip cs (lstrip cs s).

(** [sep.join(l)]. *)
Fixpoint join (sep : string) (l : list string) : string :=
  match l with
  | [] => ""
  | [x] => x
  | x :: l' => x +:+ sep +:+ join sep l'
  end.

(** [os.path.basename(p)]: what follows the last slash. *)
Fixpoint basename (p : string) : string :=
  match p with
  | EmptyString => EmptyString
  | String c p' => if mem "/" p' then basename p' else
                     if Ascii.eqb c "/" then p' else p
  end.

(** [ctype.split('/', 1)]. *)
Fixpoint split_slash (s : string) : list string :=
  match s with
  | EmptyString => [""]
  | String c s' =>
      if Ascii.eqb c "/" then [""; s'] else
        match split_slash s' with
        | x :: l => String c x :: l
        | [] => [String c ""]
        end
  end.

(** ** Exceptions *)

Inductive exn : Type :=
| Exception (msg : string)        (* raise Exception(msg) *)
| AttributeError (msg : string)
| ValueError (msg : string)
| IOError (filename : string)     (* open() failed *)
| ReError (pat : string)          (* re.error *)
| TypeError (msg : string)
| SMTPException (msg : string).   (* anything smtplib or the socket raises *)

(** The messages of the [raise Exception(...)] statements, under the
    names the error kinds go by. *)
Definition MissingBody : exn :=
  Exception "Error! Must specify at least one body type (HTML or Text)".

Definition MissingRecipient : exn :=
  Exception "Must specify at least one recipient".

Definition AttachmentNotFound (fname : string) : exn :=
  Exception ("File '" +:+ fname +:+ "' does not exist.  Not attaching to email.").

Definition AttachmentNotAFile (fname : string) : exn :=
  Exception ("Attachment '" +:+ fname +:+ "' is not a file.  Not attaching to email.").

(** [kind] is [FROM], [REPLY-TO] or the recipient type. *)
Definition InvalidAddress (kind address : string) : exn :=
  Exception ("Invalid " +:+ kind +:+ " email address '" +:+ address +:+ "'").

(** ** The object *)

(** [_from] is assigned by [setFrom] only: [None] is the attribute not
    being there. [_textBody], [_htmlBody], [_replyTo] start as Python's
    [None]. The attributes [_addressDelimiters], [_attachmentDelimiters]
    and [_reEmail] are assigned in [__init__] and by nothing else: they
    are constants below. *)
Record Email : Type := mkEmail {
  _textBody : option string;
  _hostname : string;
  _htmlBody : option string;
  _subject : string;
  _smtpServer : string;
  _smtpPort : nat;
  _username : string;
  _password : string;
  _debugLevel : nat;
  _replyTo : option string;
  _from : option string;
  _to : list string;
  _cc : list string;
  _bcc : list string;
  _attach : list (string * option string)
}.

Definition _addressDelimiters : string := String "," (String LF (String CR "")).
Definition _attachmentDelimiters : string := String LF (String CR "").

Definition _reEmail : Re.pattern :=
  default [] (Re.compile "^[^@]+@[^@]+\.[^@]+$").

(** *** Methods: state that survives an exception *)

Definition M (A : Type) : Type := Email -> (exn + A) * Email.

Definition ret {A} (a : A) : M A := fun self => (inr a, self).
Definition raise {A} (e : exn) : M A := fun self => (inl e, self).
Definition bind {A B} (m : M A) (f : A -> M B) : M B :=
  fun self =>
    match m self with
    | (inl e, self') => (inl e, self')
    | (inr a, self') => f a self'
    end.
Definition modify (f : Email -> Email) : M unit := fun self => (inr tt, f self).

Declare Scope method_scope.
Delimit Scope method_scope with method.
Notation "m ;; k" := (bind m (fun _ => k))
  (at level 100, k at level 200, right associativity) : method_scope.
Notation "x <- m ;; k" := (bind m (fun x => k))
  (at level 100, m at next level, k at level 200, right associativity)
  : method_scope.
Local Open Scope method_scope.

(** [for x in l: body(x)]. *)
Fixpoint for_each {A} (l : list A) (body : A -> M unit) : M unit :=
  match l with
  | [] => ret tt
  | x :: l' => body x ;; for_each l' body
  end.

Definition set_textBody v (e : Email) : Email :=
  mkEmail v (_hostname e) (_htmlBody e) (_subject e) (_smtpServer e)
    (_smtpPort e) (_username e) (_password e) (_debugLevel e) (_replyTo e)
    (_from e) (_to e) (_cc e) (_bcc e) (_attach e).
Definition set_htmlBody v (e : Email) : Email :=
  mkEmail (_textBody e) (_hostname e) v (_subject e) (_smtpServer e)
    (_smtpPort e) (_username e) (_password e) (_debugLevel e) (_replyTo e)
    (_from e) (_to e) (_cc e) (_bcc e) (_attach e).
Definition set_subject v (e : Email) : Email :=
  mkEmail (_textBody e) (_hostname e) (_htmlBody e) v (_smtpServer e)
    (_smtpPort e) (_username e) (_password e) (_debugLevel e) (_replyTo e)
    (_from e) (_to e) (_cc e) (_bcc e) (_attach e).
Definition set_replyTo v (e : Email) : Email :=
  mkEmail (_textBody e) (_hostname e) (_htmlBody e) (_subject e) (_smtpServer e)
    (_smtpPort e) (_username e) (_password e) (_debugLevel e) v
    (_from e) (_to e) (_cc e) (_bcc e) (_attach e).
Definition set_from v (e : Email) : Email :=
  mkEmail (_textBody e) (_hostname e) (_htmlBody e) (_subject e) (_smtpServer e)
    (_smtpPort e) (_username e) (_password e) (_debugLevel e) (_replyTo e)
    v (_to e) (_cc e) (_bcc e) (_attach e).
Definition set_to v (e : Email) : Email :=
  mkEmail (_textBody e) (_hostname e) (_htmlBody e) (_subject e) (_smtpServer e)
    (_smtpPort e) (_username e) (_password e) (_debugLevel e) (_replyTo e)
    (_from e) v (_cc e) (_bcc e) (_attach e).
Definition set_cc v (e : Email) : Email :=
  mkEmail (_textBody e) (_hostname e) (_htmlBody e) (_subject e) (_smtpServer e)
    (_smtpPort e) (_username e) (_password e) (_debugLevel e) (_replyTo e)
    (_from e) (_to e) v (_bcc e) (_attach e).
Definition set_bcc v (e : Email) : Email :=
  mkEmail (_textBody e) (_hostname e) (_htmlBody e) (_subject e) (_smtpServer e)
    (_smtpPort e) (_username e) (_password e) (_debugLevel e) (_replyTo e)
    (_from e) (_to e) (_cc e) v (_attach e).
Definition set_attach v (e : Email) : Email :=
  mkEmail (_textBody e) (_hostname e) (_htmlBody e) (_subject e) (_smtpServer e)
    (_smtpPort e) (_username e) (_password e) (_debugLevel e) (_replyTo e)
    (_from e) (_to e) (_cc e) (_bcc e) v.

(** [validateEmailAddress]: reads [_reEmail] and nothing else, changes
    nothing. *)
Definition validateEmailAddress (address : string) : bool :=
  match Re.search _reEmail address with
  | None => false
  | Some _ => true
  end.

Definition clearRecipients : M unit :=
  modify (set_to []) ;; modify (set_cc []) ;; modify (set_bcc []).

Definition clearAttachments : M unit := modify (set_attach []).

Definition __init__ (smtpServer : string) (smtpPort : nat)
    (hostname username password : string) (debugLevel : nat) : Email :=
  let self :=
    {| _textBody := None; _hostname := hostname; _htmlBody := None;
       _subject := ""; _smtpServer := smtpServer; _smtpPort := smtpPort;
       _username := username; _password := password;
       _debugLevel := debugLevel; _replyTo := None; _from := None;
       _to := []; _cc := []; _bcc := []; _attach := [] |} in
  snd ((clearRecipients ;; clearAttachments) self).

Definition setSubject (subject : string) : M unit := modify (set_subject subject).

Definition setFrom (address : string) : M unit :=
  if negb (validateEmailAddress address) then
    raise (InvalidAddress "FROM" address)
  else modify (set_from (Some address)).

Definition addRecipient (address : string) (type : string) : M unit :=
  if negb (validateEmailAddress address) then
    raise (InvalidAddress type address)
  else if String.eqb type "CC" then
    modify (fun self => set_cc (_cc self ++ [address]) self)
  else if String.eqb type "BCC" then
    modify (fun self => set_bcc (_bcc self ++ [address]) self)
  else
    modify (fun self => set_to (_to self ++ [address]) self).

(** [re.split(pat, s)], the pattern compiled on the way. *)
Definition re_split (pat : string) (s : string) : exn + list string :=
  match Re.compile pat with
  | Some p => inr (Re.split p s)
  | None => inl (ReError pat)
  end.

Definition addRecipients (addressList : string) (type : option string) : M unit :=
  match re_split ("[" +:+ _addressDelimiters +:+ "]\s*")
                 (strip _addressDelimiters addressList) with
  | inl e => raise e
  | inr fragments =>
      for_each fragments (fun address =>
        match type with
        | Some t => addRecipient address t
        | None => addRecipient address "TO"
        end)
  end.

Definition setTextBody (body : string) : M unit := modify (set_textBody (Some body)).

Definition setHtmlBody (body : string) : M unit := modify (set_htmlBody (Some body)).

Definition setReplyTo (address : string) : M unit :=
  if negb (validateEmailAddress address) then
    raise (InvalidAddress "REPLY-TO" address)
  else modify (set_replyTo (Some address)).

(** [filepath] may be Python's [None]; the empty string is a string
    like any other. *)
Definition addAttachment (filepath : option string) (attachname : option string)
  : M unit :=
  match filepath with
  | None => ret tt
  | Some p => modify (fun self => set_attach (_attach self ++ [(p, attachname)]) self)
  end.

Definition addAttachments (filepathList : string) : M unit :=
  match re_split ("[" +:+ _attachmentDelimiters +:+ "]\s*")
                 (strip _attachmentDelimiters filepathList) with
  | inl e => raise e
  | inr fragments =>
      for_each fragments (fun thisFile => addAttachment (Some thisFile) None)
  end.

Local Close Scope method_scope.

(** ** MIME messages (the [email] package) *)

Inductive encoding : Type := SevenBit | EightBit | Base64.

(** A header: name, value and the parameters of [add_header]. *)
Definition header : Type := string * string * list (string * string).

(** A message object: content type, the headers set on it by this
    program, the preamble, and either a payload with its
    Content-Transfer-Encoding or the list of attached parts. *)
Inductive mime : Type :=
| MIME (maintype subtype : string) (headers : list header)
       (preamble : option string) (body : content)
with content : Type :=
| Payload (cte : option encoding) (data : option string)
| Parts (ps : list mime).

Definition maintype_of (m : mime) : string := let 'MIME t _ _ _ _ := m in t.
Definition subtype_of (m : mime) : string := let 'MIME _ s _ _ _ := m in s.
Definition headers_of (m : mime) : list header := let 'MIME _ _ h _ _ := m in h.
Definition body_of (m : mime) : content := let 'MIME _ _ _ _ b := m in b.

(** [encoders.encode_7or8bit]: 7bit for a payload of ASCII characters
    and for no payload, 8bit otherwise. *)
Definition is_ascii (c : ascii) : bool :=
  let 'Ascii _ _ _ _ _ _ _ b7 := c in negb b7.

Definition encode_7or8bit (payload : option string) : encoding :=
  match payload with
  | None => SevenBit
  | Some s => if all_chars is_ascii s then SevenBit else EightBit
  end.

(** [MIMEText(text, subtype)], with the default charset us-ascii; the
    text may be Python's [None]. *)
Definition MIMEText (_text : option string) (_subtype : string) : mime :=
  MIME "text" _subtype [] None (Payload (Some (encode_7or8bit _text)) _text).

(** [MIMEImage(data, _subtype=...)] and [MIMEAudio]: their default
    encoder is Base64. *)
Definition MIMEImage (_imagedata _subtype : string) : mime :=
  MIME "image" _subtype [] None (Payload (Some Base64) (Some _imagedata)).

Definition MIMEAudio (_audiodata _subtype : string) : mime :=
  MIME "audio" _subtype [] None (Payload (Some Base64) (Some _audiodata)).

(** [MIMEBase(maintype, subtype)]: no payload, no encoding yet. *)
Definition MIMEBase (_maintype _subtype : string) : mime :=
  MIME _maintype _subtype [] None (Payload None None).

(** [MIMEMultipart(subtype)]; the default subtype is [mixed]. *)
Definition MIMEMultipart (_subtype : string) : mime :=
  MIME "multipart" _subtype [] None (Parts []).

Definition set_payload (data : string) (m : mime) : mime :=
  match m with
  | MIME t s h p (Payload cte _) => MIME t s h p (Payload cte (Some data))
  | MIME t s h p (Parts _) => MIME t s h p (Payload None (Some data))
  end.

(** [encoders.encode_base64(m)]: the payload becomes its Base64 text and
    Content-Transfer-Encoding says so; [data] stays the decoded bytes.
    The program calls it on a part with a string payload only. *)
Definition encode_base64 (m : mime) : mime :=
  match m with
  | MIME t s h p (Payload _ data) => MIME t s h p (Payload (Some Base64) data)
  | MIME _ _ _ _ (Parts _) => m
  end.

(** [m.add_header(name, value, **params)] and [m[name] = value]. *)
Definition add_header (name value : string) (params : list (string * string))
    (m : mime) : mime :=
  let 'MIME t s h p b := m in MIME t s (h ++ [(name, value, params)]) p b.

Definition set_item (name value : string) (m : mime) : mime :=
  add_header name value [] m.

Definition set_preamble (text : string) (m : mime) : mime :=
  let 'MIME t s h _ b := m in MIME t s h (Some text) b.

(** [m.attach(part)]: appends to the list of parts; on a message whose
    payload is a string the [append] is not there. *)
Definition attach (part : mime) (m : mime) : exn + mime :=
  match m with
  | MIME t s h p (Parts ps) => inr (MIME t s h p (Parts (ps ++ [part])))
  | MIME _ _ _ _ (Payload _ _) =>
      inl (AttributeError "'str' object has no attribute 'append'")
  end.

(** ** The world [send] runs in *)

Inductive node : Type :=
| RegularFile (readable : bool) (data : string)
| Directory.

(** What the SMTP server at [(_smtpServer, _smtpPort)] answers: [None]
    is the call returning, [Some e] is it raising [e]. [sendmail]
    returns the refused recipients. *)
Record SMTPServer : Type := {
  smtp_connect : option exn;
  smtp_ehlo : option exn;
  smtp_has_starttls : bool;
  smtp_starttls : option exn;
  smtp_quit : option exn;
  smtp_ssl_connect : option exn;
  smtp_login : string -> string -> option exn;
  smtp_sendmail : string -> list string -> mime -> exn + list (string * string)
}.

Record World : Type := {
  fs : gmap string node;
  guess_type : string -> option string * option string;
  server : SMTPServer
}.

(** Every access to the disk and every call on the SMTP session, in the
    order [send] makes them. [Sendmail] carries the message whose
    [as_string()] text is submitted. *)
Inductive event : Type :=
| FsExists (path : string)
| FsIsFile (path : string)
| FsOpen (path : string) (mode : string)
| Connect (host : string) (port : nat) (local_hostname : string) (timeout : nat)
| ConnectSSL (host : string) (port : nat) (local_hostname : string)
| SetDebugLevel (level : nat)
| Ehlo
| HasExtn (name : string)
| StartTLS
| Login (user password : string)
| Sendmail (from_addr : string) (to_addrs : list string) (msg : mime)
| Quit.

Definition is_smtp (e : event) : bool :=
  match e with
  | FsExists _ | FsIsFile _ | FsOpen _ _ => false
  | _ => true
  end.

(** *** Effects of [send]: a log and an exception *)

Definition IO (A : Type) : Type := list event * (exn + A).

Definition io_ret {A} (a : A) : IO A := ([], inr a).
Definition io_raise {A} (e : exn) : IO A := ([], inl e).
Definition io_bind {A B} (m : IO A) (f : A -> IO B) : IO B :=
  match m with
  | (t, inl e) => (t, inl e)
  | (t, inr a) => let (t', r) := f a in (t ++ t', r)
  end.
Definition io_lift {A} (r : exn + A) : IO A := ([], r).
Definition log (e : event) : IO unit := ([e], inr tt).

(** A call on the session: logged, then it returns or raises. *)
Definition call (e : event) (outcome : option exn) : IO unit :=
  match outcome with
  | None => ([e], inr tt)
  | Some err => ([e], inl err)
  end.

Declare Scope io_scope.
Delimit Scope io_scope with io.
Notation "m ;; k" := (io_bind m (fun _ => k))
  (at level 100, k at level 200, right associativity) : io_scope.
Notation "x <- m ;; k" := (io_bind m (fun x => k))
  (at level 100, m at next level, k at level 200, right associativity)
  : io_scope.
Local Open Scope io_scope.

(** [try: body  finally: try: cleanup  except Exception: pass]. *)
Definition finally_quietly {A} (body : IO A) (cleanup : IO unit) : IO A :=
  let (t, r) := body in (t ++ fst cleanup, r).

Fixpoint io_fold {A B} (f : B -> A -> IO B) (l : list A) (b : B) : IO B :=
  match l with
  | [] => io_ret b
  | x :: l' => b' <- f b x ;; io_fold f l' b'
  end.

(** What [os.path.exists] and [os.path.isfile] answer in [w]. *)
Definition path_exists (w : World) (path : string) : bool :=
  bool_decide (is_Some (fs w !! path)).

Definition path_isfile (w : World) (path : string) : bool :=
  match fs w !! path with
  | Some (RegularFile _ _) => true
  | _ => false
  end.

Definition os_path_exists (w : World) (path : string) : IO bool :=
  ([FsExists path], inr (path_exists w path)).

Definition os_path_isfile (w : World) (path : string) : IO bool :=
  ([FsIsFile path], inr (path_isfile w path)).

(** [fp = open(fname, mode); data = fp.read(); fp.close()]. *)
Definition read_file (w : World) (fname mode : string) : IO string :=
  ([FsOpen fname mode],
   match fs w !! fname with
   | Some (RegularFile true data) => inr data
   | _ => inl (IOError fname)
   end).

(** ** [send] *)

(** Lines 62-66. *)
Definition validate_message (self : Email) : IO unit :=
  if bool_decide (_textBody self = None) && bool_decide (_htmlBody self = None)
  then io_raise MissingBody
  else if Nat.eqb (length (_to self)) 0 then io_raise MissingRecipient
  else io_ret tt.

(** Lines 68-76. The last branch is the [else]: it is also where both
    bodies being [None] would go, had line 63 not raised. *)
Definition create_message_part (self : Email) : exn + mime :=
  match _textBody self, _htmlBody self with
  | Some textBody, None => inr (MIMEText (Some textBody) "plain")
  | None, Some htmlBody => inr (MIMEText (Some htmlBody) "html")
  | textBody, htmlBody =>
      match attach (MIMEText textBody "plain") (MIMEMultipart "alternative") with
      | inl e => inl e
      | inr msg => attach (MIMEText htmlBody "html") msg
      end
  end.

(** Lines 79-82. *)
Definition wrap_for_attachments (self : Email) (msg : mime) : exn + mime :=
  if negb (Nat.eqb (length (_attach self)) 0) then attach msg (MIMEMultipart "mixed")
  else inr msg.

(** Lines 84-120: the part for one attachment. *)
Definition attachment_part (w : World) (fname : string)
    (attachname : option string) : IO mime :=
  e <- os_path_exists w fname ;;
  if negb e then io_raise (AttachmentNotFound fname) else
  f <- os_path_isfile w fname ;;
  if negb f then io_raise (AttachmentNotAFile fname) else
  let (ctype0, encoding) := guess_type w fname in
  let ctype :=
    match ctype0, encoding with
    | Some ct, None => ct
    | _, _ => "application/octet-stream"
    end in
  match split_slash ctype with
  | [maintype; subtype] =>
      part <-
        (if String.eqb maintype "text" then
           data <- read_file w fname "r" ;; io_ret (MIMEText (Some data) subtype)
         else if String.eqb maintype "image" then
           data <- read_file w fname "rb" ;; io_ret (MIMEImage data subtype)
         else if String.eqb maintype "audio" then
           data <- read_file w fname "rb" ;; io_ret (MIMEAudio data subtype)
         else
           data <- read_file w fname "rb" ;;
           io_ret (encode_base64 (set_payload data (MIMEBase maintype subtype)))) ;;
      let filename :=
        match attachname with
        | None => basename fname
        | Some name => name
        end in
      io_ret (add_header "Content-Disposition" "attachment"
                [("filename", filename)] part)
  | _ => io_raise (ValueError "need more than 1 value to unpack")
  end.

(** Lines 83-121: the body of the loop, and the loop. *)
Definition attach_one (w : World) (msg : mime) (a : string * option string)
  : IO mime :=
  let (fname, attachname) := a in
  part <- attachment_part w fname attachname ;;
  io_lift (attach part msg).

Definition add_attachments (w : World) (self : Email) (msg : mime) : IO mime :=
  io_fold (attach_one w) (_attach self) msg.

(** Line 126 reads [self._from]. *)
Definition get_from (self : Email) : exn + string :=
  match _from self with
  | Some address => inr address
  | None => inl (AttributeError "Email instance has no attribute '_from'")
  end.

(** Lines 123-132. *)
Definition complete_header (self : Email) (msg : mime) : exn + mime :=
  let msg := set_item "Subject" (_subject self) msg in
  match get_from self with
  | inl e => inl e
  | inr from_addr =>
      let msg := set_item "From" from_addr msg in
      let msg := set_item "To" (join ", " (_to self)) msg in
      let msg := set_item "CC" (join ", " (_cc self)) msg in
      let msg := set_item "BCC" (join ", " (_bcc self)) msg in
      let msg :=
        match _replyTo self with
        | Some address => set_item "reply-to" address msg
        | None => msg
        end in
      inr (set_preamble "You need a MIME enabled mail reader to see this message" msg)
  end.

(** Lines 136-159. When the first connection fails [server] is not
    bound, and the [quit] of the [finally] clause raises a [NameError]
    that is passed over without reaching the network. *)
Definition send_message (w : World) (self : Email) (msg : mime)
    (allRecipients : list string) : IO (list (string * string)) :=
  let srv := server w in
  match smtp_connect srv with
  | Some err =>
      ([Connect (_smtpServer self) (_smtpPort self) (_hostname self) 5], inl err)
  | None =>
      finally_quietly
        (log (Connect (_smtpServer self) (_smtpPort self) (_hostname self) 5) ;;
         log (SetDebugLevel (_debugLevel self)) ;;
         call Ehlo (smtp_ehlo srv) ;;
         (if nonempty (_username self) then
            (starttls <- (log (HasExtn "STARTTLS") ;; io_ret (smtp_has_starttls srv)) ;;
             if (starttls : bool) then call StartTLS (smtp_starttls srv)
             else
               call Quit (smtp_quit srv) ;;
               call (ConnectSSL (_smtpServer self) (_smtpPort self) (_hostname self))
                    (smtp_ssl_connect srv) ;;
               log (SetDebugLevel (_debugLevel self))) ;;
            call Ehlo (smtp_ehlo srv) ;;
            call (Login (_username self) (_password self))
                 (smtp_login srv (_username self) (_password self))
          else io_ret tt) ;;
         from_addr <- io_lift (get_from self) ;;
         (log (Sendmail from_addr allRecipients msg) ;;
          io_lift (smtp_sendmail srv from_addr allRecipients msg)))
        (call Quit (smtp_quit srv))
  end.

Definition send (w : World) (self : Email) : IO (list (string * string)) :=
  validate_message self ;;
  msg <- io_lift (create_message_part self) ;;
  msg <- io_lift (wrap_for_attachments self msg) ;;
  msg <- add_attachments w self msg ;;
  msg <- io_lift (complete_header self msg) ;;
  let allRecipients := _to self ++ _cc self ++ _bcc self in
  send_message w self msg allRecipients.

(** ** What the specification calls a valid address *)

Definition no_at (s : string) : bool :=
  all_chars (fun c => negb (Ascii.eqb c "@")) s.

(** From the words of the specification: non-@ characters, an @, non-@
    characters, a dot, non-@ characters, and nothing after. *)
Definition permissive_form (s : string) : Prop :=
  exists a b c : string,
    s = a +:+ "@" +:+ b +:+ "." +:+ c /\
    nonempty a = true /\ nonempty b = true /\ nonempty c = true /\
    no_at a = true /\ no_at b = true /\ no_at c = true.

(** The address pattern with [\Z], the end of the string and nothing
    else, in the place of [$]. *)
Definition reEmail_strict : Re.pattern :=
  default [] (Re.compile "^[^@]+@[^@]+\.[^@]+\Z").

(** ** Vocabulary of the statements *)

(** The recipient list that [addRecipient] selects for [type], with
    [l] appended. *)
Definition extend_recipients (type : string) (l : list string)
    (self : Email) : Email :=
  if String.eqb type "CC" then set_cc (_cc self ++ l) self
  else if String.eqb type "BCC" then set_bcc (_bcc self ++ l) self
  else set_to (_to self ++ l) self.

(** The pattern that [addRecipients] and [addAttachments] split on, as
    [re.compile] reads it: one of the delimiters, then whitespace. *)
Definition delimiter (delims : string) : Re.pattern :=
  [Re.One (Re.InSet delims); Re.Star Re.Space].

Definition address_delimiter : Re.pattern := delimiter _addressDelimiters.

Definition starts_with (cs : string) (s : string) : bool :=
  match s with
  | EmptyString => false
  | String c _ => mem c cs
  end.

(** [Splits delims s fs]: [fs] are the pieces of [s] between its
    delimiters, a delimiter being one character of [delims] and all the
    whitespace that follows it. Empty pieces are pieces. *)
Inductive Splits (delims : string) : string -> list string -> Prop :=
| Splits_last (f : string) :
    all_chars (fun c => negb (mem c delims)) f = true ->
    Splits delims f [f]
| Splits_piece (f : string) (d : ascii) (ws rest : string) (fs : list string) :
    all_chars (fun c => negb (mem c delims)) f = true ->
    mem d delims = true ->
    all_chars (fun c => mem c Re.whitespace) ws = true ->
    starts_with Re.whitespace rest = false ->
    Splits delims rest fs ->
    Splits delims (f +:+ String d (ws +:+ rest)) (f :: fs).

(** The fragments that the loop of [addRecipients] runs over. *)
Definition address_fragments (addressList : string) : list string :=
  Re.split address_delimiter (strip _addressDelimiters addressList).

Definition valid (address : string) : Prop := validateEmailAddress address = true.

(** A freshly constructed object. *)
Definition fresh : Email := __init__ "localhost" 25 "" "" "" 0.

(** The content type that lines 91-94 settle on for [fname]. *)
Definition content_type (w : World) (fname : string) : string :=
  match guess_type w fname with
  | (Some ct, None) => ct
  | _ => "application/octet-stream"
  end.

(** [fname] can be attached: it is a regular file that can be read, and
    its content type has a main type and a subtype. *)
Definition attachable (w : World) (fname : string) : bool :=
  match fs w !! fname with
  | Some (RegularFile true _) =>
      match split_slash (content_type w fname) with
      | [_; _] => true
      | _ => false
      end
  | _ => false
  end.

(** [for part in parts: msg.attach(part)]. *)
Fixpoint attach_all (parts : list mime) (msg : mime) : exn + mime :=
  match parts with
  | [] => inr msg
  | part :: parts' =>
      match attach part msg with
      | inl e => inl e
      | inr msg' => attach_all parts' msg'
      end
  end.

(** Same content type and same payload or parts: equal up to the
    headers and the preamble. *)
Definition same_content (m1 m2 : mime) : Prop :=
  maintype_of m1 = maintype_of m2 /\ subtype_of m1 = subtype_of m2 /\
  body_of m1 = body_of m2.

(** [msg] is what [send] hands to [sendmail]. *)
Definition submits (w : World) (self : Email) (msg : mime) : Prop :=
  exists from_addr to_addrs,
    In (Sendmail from_addr to_addrs msg) (fst (send w self)).

(** The message part for the bodies, inside a submitted message: the
    message itself when nothing is attached, the first part of the
    multipart/mixed container otherwise. *)
Definition body_part_of (self : Email) (msg : mime) : option mime :=
  match _attach self with
  | [] => Some msg
  | _ :: _ =>
      match msg with
      | MIME _ _ _ _ (Parts (part :: _)) => Some part
      | _ => None
      end
  end.

(** The parts for the attachments, inside a submitted message: the
    parts of the multipart/mixed container after its first one. *)
Definition attachment_parts_of (self : Email) (msg : mime) : list mime :=
  match _attach self with
  | [] => []
  | _ :: _ =>
      match msg with
      | MIME _ _ _ _ (Parts (_ :: parts)) => parts
      | _ => []
      end
  end.

Definition has_header (h : header) (m : mime) : Prop := In h (headers_of m).

(** A log without a call on the SMTP session. *)
Definition no_smtp (t : list event) : Prop := Forall (fun e => is_smtp e = false) t.

Definition is_multipart (m : mime) : bool :=
  match body_of m with
  | Parts _ => true
  | Payload _ _ => false
  end.

(** The Content-Disposition header of the part for an attachment. *)
Definition disposition (fname : string) (attachname : option string) : header :=
  ("Content-Disposition", "attachment",
   [("filename", match attachname with
                 | None => basename fname
                 | Some name => name
                 end)]).

(** [part] is the part that [send] builds for the attachment [a]. *)
Definition part_for (w : World) (a : string * option string) (part : mime) : Prop :=
  exists t, attachment_part w (fst a) (snd a) = (t, inr part).

(** A server that accepts everything, and a disk with a binary file, a
    text file, a file that cannot be read and a directory. *)
Definition quiet_server : SMTPServer :=
  {| smtp_connect := None; smtp_ehlo := None; smtp_has_starttls := true;
     smtp_starttls := None; smtp_quit := None; smtp_ssl_connect := None;
     smtp_login := fun _ _ => None;
     smtp_sendmail := fun _ _ _ => inr [] |}.

Definition example_world : World :=
  {| fs := {[ "/srv/report.bin" := RegularFile true "0101";
              "/srv/notes.txt" := RegularFile true "notes";
              "/srv/locked.txt" := RegularFile false "";
              "/srv" := Directory ]};
     guess_type := fun fname =>
       if String.eqb fname "/srv/notes.txt" then (Some "text/plain", None)
       else if String.eqb fname "/srv/locked.txt" then (Some "text/plain", None)
       else (None, None);
     server := quiet_server |}.

(** The object after a call, whether it returned or raised. *)
Definition after {A} (call : M A) (self : Email) : Email := snd (call self).

(** A message with a sender, a recipient and a plain body. *)
Definition example_email : Email :=
  after (setTextBody "hello")
    (after (addRecipient "a@b.com" "TO") (after (setFrom "x@y.org") fresh)).

(** ** The script under the class: lines 319-320 and 363-386 *)

(** The values that lines 303-360 leave in [mFrom], [mTo] and the
    others are the parameters. The script either ends on an exception
    that nothing catches (line 320), or prints: the result of [send],
    or [str(err)] for the exception [err] that line 385 has caught. *)
Record settings : Type := {
  mServer : string;
  mPort : nat;
  mHostname : string;
  mUsername : string;
  mPassword : string;
  mDebugLevel : nat;
  mFrom : string;
  mTo : string;
  mCC : string;
  mBCC : string;
  mReplyTo : string;
  mSubject : string;
  mBodyText : string;
  mBodyHTML : string;
  mFile : string
}.

(** [if cond: body] in a sequence of method calls. *)
Definition when (cond : bool) (body : M unit) : M unit :=
  if cond then body else ret tt.

(** Lines 366-382: the calls on [m] before [send]. *)
Definition compose (v : settings) : M unit :=
  bind (setFrom (mFrom v)) (fun _ =>
  bind (addRecipients (mTo v) None) (fun _ =>
  bind (when (nonempty (mCC v)) (addRecipients (mCC v) (Some "CC"))) (fun _ =>
  bind (when (nonempty (mBCC v)) (addRecipients (mBCC v) (Some "BCC"))) (fun _ =>
  bind (when (nonempty (mReplyTo v)) (setReplyTo (mReplyTo v))) (fun _ =>
  bind (setSubject (mSubject v)) (fun _ =>
  bind (when (nonempty (mBodyText v)) (setTextBody (mBodyText v))) (fun _ =>
  bind (when (nonempty (mBodyHTML v)) (setHtmlBody (mBodyHTML v))) (fun _ =>
  when (nonempty (mFile v)) (addAttachments (mFile v)))))))))).

(** Lines 363-386: what is printed, with the log of [send]. *)
Definition create_and_send (w : World) (v : settings)
  : list event * (exn + list (string * string)) :=
  let m := __init__ (mServer v) (mPort v) (mHostname v) (mUsername v)
             (mPassword v) (mDebugLevel v) in
  match compose v m with
  | (inl err, _) => ([], inl err)
  | (inr _, m') => send w m'
  end.

(** Lines 319-320, then lines 363-386: [inl] is the exception that
    ends the script, [inr] is what it prints. *)
Definition script (w : World) (v : settings)
  : list event * (exn + (exn + list (string * string))) :=
  if String.eqb (mBodyHTML v) "" && String.eqb (mBodyText v) "" then
    ([], inl (Exception "bodyHTML or bodyText must be declared for message body."))
  else
    let (t, printed) := create_and_send w v in (t, inr printed).

(** ** Vocabulary of the further statements *)

(** A call of a method that changes the object. *)
Inductive method_call : Type :=
| CallSetSubject (subject : string)
| CallSetFrom (address : string)
| CallClearRecipients
| CallAddRecipient (address type : string)
| CallAddRecipients (addressList : string) (type : option string)
| CallSetTextBody (body : string)
| CallSetHtmlBody (body : string)
| CallSetReplyTo (address : string)
| CallClearAttachments
| CallAddAttachment (filepath attachname : option string)
| CallAddAttachments (filepathList : string).

Definition perform (c : method_call) : M unit :=
  match c with
  | CallSetSubject subject => setSubject subject
  | CallSetFrom address => setFrom address
  | CallClearRecipients => clearRecipients
  | CallAddRecipient address type => addRecipient address type
  | CallAddRecipients addressList type => addRecipients addressList type
  | CallSetTextBody body => setTextBody body
  | CallSetHtmlBody body => setHtmlBody body
  | CallSetReplyTo address => setReplyTo address
  | CallClearAttachments => clearAttachments
  | CallAddAttachment filepath attachname => addAttachment filepath attachname
  | CallAddAttachments filepathList => addAttachments filepathList
  end.

(** The objects that a program can hold: a new one, and any that calls
    have been made on, whether they returned or raised. [send] changes
    nothing of the object. *)
Inductive reachable : Email -> Prop :=
| reachable_new smtpServer smtpPort hostname username password debugLevel :
    reachable (__init__ smtpServer smtpPort hostname username password debugLevel)
| reachable_call (self : Email) (c : method_call) :
    reachable self -> reachable (after (perform c) self).

Definition valid_if_set (o : option string) : Prop :=
  match o with
  | Some address => valid address
  | None => True
  end.

(** Every address that the object holds has passed
    [validateEmailAddress]. *)
Definition addresses_validated (self : Email) : Prop :=
  Forall valid (_to self) /\ Forall valid (_cc self) /\
  Forall valid (_bcc self) /\
  valid_if_set (_from self) /\ valid_if_set (_replyTo self).

(** The arguments of the constructor, as the object holds them. *)
Definition connection (self : Email)
  : string * nat * string * string * string * nat :=
  (_smtpServer self, _smtpPort self, _hostname self, _username self,
   _password self, _debugLevel self).

(** All the characters of [s] are among [cs]. *)
Definition all_in (cs : string) (s : string) : bool :=
  all_chars (fun c => mem c cs) s.

(** None of the characters of [s] is among [cs]. *)
Definition none_in (cs : string) (s : string) : bool :=
  all_chars (fun c => negb (mem c cs)) s.

(** An address that a list with delimiters can carry: not empty, no
    delimiter inside, no whitespace in front. *)
Definition listable (address : string) : Prop :=
  nonempty address = true /\
  none_in _addressDelimiters address = true /\
  starts_with Re.whitespace address = false.

(** The fragments that the loop of [addAttachments] runs over. *)
Definition attachment_fragments (filepathList : string) : list string :=
  Re.split (delimiter _attachmentDelimiters)
           (strip _attachmentDelimiters filepathList).

(** The headers that lines 125-131 set, in their order. *)
Definition expected_headers (self : Email) (from_addr : string) : list header :=
  [("Subject", _subject self, []);
   ("From", from_addr, []);
   ("To", join ", " (_to self), []);
   ("CC", join ", " (_cc self), []);
   ("BCC", join ", " (_bcc self), [])] ++
  match _replyTo self with
  | Some address => [("reply-to", address, [])]
  | None => []
  end.

(** In a log, every [Login] comes after a [StartTLS] or an SSL
    connection; [secure] tells whether one has been seen. *)
Fixpoint login_secured (secure : bool) (t : list event) : bool :=
  match t with
  | [] => true
  | e :: t' =>
      match e with
      | Login _ _ => secure && login_secured secure t'
      | StartTLS | ConnectSSL _ _ _ => login_secured true t'
      | _ => login_secured secure t'
      end
  end.

Definition is_sendmail (e : event) : bool :=
  match e with
  | Sendmail _ _ _ => true
  | _ => false
  end.

(** The server lets the session get as far as [sendmail]. *)
Definition session_opens (w : World) (self : Email) : Prop :=
  smtp_connect (server w) = None /\
  smtp_ehlo (server w) = None /\
  (nonempty (_username self) = true ->
   (if smtp_has_starttls (server w)
    then smtp_starttls (server w) = None
    else smtp_quit (server w) = None /\ smtp_ssl_connect (server w) = None) /\
   smtp_login (server w) (_username self) (_password self) = None).

(** The mode that [send] opens an attachment in. *)
Definition open_mode (maintype : string) : string :=
  if String.eqb maintype "text" then "r" else "rb".

(** The settings of a run, and a server without STARTTLS. *)
Definition example_settings : settings :=
  {| mServer := "smtp.example.org"; mPort := 587; mHostname := "example.org";
     mUsername := "user"; mPassword := "secret"; mDebugLevel := 0;
     mFrom := "Sender <x@y.org>"; mTo := "a@b.com, c@d.com";
     mCC := ""; mBCC := "e@f.com"; mReplyTo := "";
     mSubject := "hello"; mBodyText := "plain"; mBodyHTML := "<b>bold</b>";
     mFile := "" |}.

(** The same settings with a CC list that holds no address. *)
Definition rejected_settings : settings :=
  {| mServer := "smtp.example.org"; mPort := 587; mHostname := "example.org";
     mUsername := "user"; mPassword := "secret"; mDebugLevel := 0;
     mFrom := "Sender <x@y.org>"; mTo := "a@b.com, c@d.com";
     mCC := "nobody"; mBCC := "e@f.com"; mReplyTo := "";
     mSubject := "hello"; mBodyText := "plain"; mBodyHTML := "<b>bold</b>";
     mFile := "/srv/absent.txt" |}.

(** [s] without its first and its last character. *)
Fixpoint chop (s : string) : string :=
  match s with
  | EmptyString => EmptyString
  | String c EmptyString => EmptyString
  | String c s' => String c (chop s')
  end.

Definition inner (s : string) : string :=
  match s with
  | EmptyString => EmptyString
  | String _ s' => chop s'
  end.

(** The object after a sequence of calls. *)
Definition after_calls (cs : list method_call) (self : Email) : Email :=
  fold_left (fun s c => after (perform c) s) cs self.

Definition preamble_of (m : mime) : option string :=
  let 'MIME _ _ _ p _ := m in p.

(** The recipients of the envelope: line 134. *)
Definition allRecipients (self : Email) : list string :=
  _to self ++ _cc self ++ _bcc self.

(** The first connection of [send]: line 138. *)
Definition first_connect (self : Email) : event :=
  Connect (_smtpServer self) (_smtpPort self) (_hostname self) 5.

(** [Some s] for a string that is not empty: what an attribute set
    under [if s:] holds. *)
Definition if_nonempty (s : string) : option string :=
  if nonempty s then Some s else None.

(** The addresses of the settings that the setters accept. *)
Definition settings_accepted (v : settings) : Prop :=
  valid (mFrom v) /\
  Forall valid (address_fragments (mTo v)) /\
  (nonempty (mCC v) = true -> Forall valid (address_fragments (mCC v))) /\
  (nonempty (mBCC v) = true -> Forall valid (address_fragments (mBCC v))) /\
  (nonempty (mReplyTo v) = true -> valid (mReplyTo v)).

(** The object that lines 365-382 build out of accepted settings. *)
Definition composed (v : settings) : Email :=
  {| _textBody := if_nonempty (mBodyText v);
     _hostname := mHostname v;
     _htmlBody := if_nonempty (mBodyHTML v);
     _subject := mSubject v;
     _smtpServer := mServer v;
     _smtpPort := mPort v;
     _username := mUsername v;
     _password := mPassword v;
     _debugLevel := mDebugLevel v;
     _replyTo := if_nonempty (mReplyTo v);
     _from := Some (mFrom v);
     _to := address_fragments (mTo v);
     _cc := if nonempty (mCC v) then address_fragments (mCC v) else [];
     _bcc := if nonempty (mBCC v) then address_fragments (mBCC v) else [];
     _attach :=
       if nonempty (mFile v)
       then map (fun thisFile => (thisFile, None)) (attachment_fragments (mFile v))
       else [] |}.



(** A message as [example_email], of an object with a user name and a
    password. *)
Definition example_account : Email :=
  after (setTextBody "hello")
    (after (addRecipient "a@b.com" "TO")
       (after (setFrom "x@y.org")
          (__init__ "smtp.example.org" 587 "example.org" "user" "secret" 0))).

(** * Proofs *)

(** ** Strings *)

Lemma app_nil_r_s (s : string) : s +:+ "" = s.
Proof. induction s as [|c s IH]; simpl; [reflexivity | now rewrite IH]. Qed.

Lemma app_assoc_s (a b c : string) : (a +:+ b) +:+ c = a +:+ (b +:+ c).
Proof. induction a as [|x a IH]; simpl; [reflexivity | now rewrite IH]. Qed.

Lemma length_app_s (a b : string) :
  String.length (a +:+ b) = String.length a + String.length b.
Proof. induction a as [|x a IH]; simpl; [reflexivity | now rewrite IH]. Qed.

Lemma all_chars_app p (a b : string) :
  all_chars p (a +:+ b) = all_chars p a && all_chars p b.
Proof.
  induction a as [|x a IH]; simpl; [reflexivity|].
  rewrite IH. now rewrite andb_assoc.
Qed.

Lemma all_chars_ext p q (s : string) :
  (forall c, p c = q c) -> all_chars p s = all_chars q s.
Proof.
  intros E. induction s as [|c s IH]; simpl; [reflexivity|].
  now rewrite E, IH.
Qed.

Lemma mem_app c (a b : string) : mem c (a +:+ b) = mem c a || mem c b.
Proof.
  induction a as [|x a IH]; simpl; [reflexivity|].
  rewrite IH. now rewrite orb_assoc.
Qed.

Lemma count_char_app c (a b : string) :
  count_char c (a +:+ b) = count_char c a + count_char c b.
Proof. induction a as [|x a IH]; simpl; [reflexivity | rewrite IH; lia]. Qed.

Lemma no_at_count (s : string) : no_at s = true -> count_char "@" s = 0.
Proof.
  induction s as [|c s IH]; simpl; [reflexivity|].
  intros H. apply andb_prop in H as [Hc Hs].
  apply negb_true_iff in Hc. rewrite Hc. simpl. now apply IH.
Qed.

Lemma no_at_after_first (a rest : string) :
  no_at a = true -> after_first "@" (a +:+ String "@" rest) = Some rest.
Proof.
  induction a as [|c a IH]; simpl; [reflexivity|].
  intros H. apply andb_prop in H as [Hc Ha].
  apply negb_true_iff in Hc. rewrite Hc. now apply IH.
Qed.

(** ** The matcher *)

Section Matcher.
Import Re.

(** A greedy repetition succeeds exactly when some run of accepted
    characters can be followed by the rest of the pattern. *)
Lemma many_is_Some p (k : cont) (s : string) : forall b,
  is_Some (many p k b s) <->
  exists u v, s = u +:+ v /\ all_chars p u = true /\
              is_Some (k (if nonempty u then false else b) v).
Proof.
  induction s as [|c s IH]; intros b; simpl.
  - split.
    + intros H. exists "", "". simpl. auto.
    + intros (u & v & E & _ & H).
      destruct u; simpl in E; [|discriminate].
      subst v. exact H.
  - split.
    + intros H. destruct (p c) eqn:Hc.
      * destruct (many p k false s) eqn:Hm.
        -- assert (Hs : is_Some (many p k false s)) by (rewrite Hm; eauto).
           apply IH in Hs as (u & v & E & Hu & Hk).
           exists (String c u), v. simpl. rewrite Hc, Hu. subst s.
           repeat split; auto.
           destruct (nonempty u); exact Hk.
        -- exists "", (String c s). simpl. auto.
      * exists "", (String c s). simpl. auto.
    + intros (u & v & E & Hu & Hk).
      destruct u as [|d u]; simpl in *.
      * subst v. destruct (p c); [|exact Hk].
        destruct (many p k false s); [eauto | exact Hk].
      * injection E as -> ->.
        apply andb_prop in Hu as [Hc Hu]. rewrite Hc.
        assert (Hs : is_Some (many p k false (u +:+ v))).
        { apply IH. exists u, v. repeat split; auto.
          destruct (nonempty u); exact Hk. }
        destruct Hs as [r ->]. eauto.
Qed.

Lemma run_Plus_is_Some a rest b (s : string) :
  is_Some (run (Plus a :: rest) b s) <->
  exists u v, s = u +:+ v /\ nonempty u = true /\
              all_chars (accepts a) u = true /\ is_Some (run rest false v).
Proof.
  simpl. destruct s as [|c s].
  - split.
    + intros [x Hx]. discriminate.
    + intros (u & v & E & Hn & _). destruct u; simpl in *; discriminate.
  - destruct (accepts a c) eqn:Hc.
    + rewrite many_is_Some. split.
      * intros (u & v & E & Hu & Hk). exists (String c u), v.
        simpl. rewrite Hc, Hu, E. repeat split; auto.
        destruct (nonempty u); exact Hk.
      * intros (u & v & E & Hn & Hu & Hk).
        destruct u as [|d u]; simpl in *; [discriminate|].
        injection E as -> ->. apply andb_prop in Hu as [_ Hu].
        exists u, v. repeat split; auto.
        destruct (nonempty u); exact Hk.
    + split.
      * intros [x Hx]. discriminate.
      * intros (u & v & E & Hn & Hu & _).
        destruct u as [|d u]; simpl in *; [discriminate|].
        injection E as -> ->. rewrite Hc in Hu. discriminate.
Qed.

Lemma run_One_is_Some a rest b (s : string) :
  is_Some (run (One a :: rest) b s) <->
  exists c v, s = String c v /\ accepts a c = true /\
              is_Some (run rest false v).
Proof.
  simpl. destruct s as [|c s].
  - split; [intros [x Hx]; discriminate | intros (c & v & E & _); discriminate].
  - destruct (accepts a c) eqn:Hc.
    + split; [intros H; eauto | intros (d & v & E & _ & H); congruence].
    + split; [intros [x Hx]; discriminate|].
      intros (d & v & E & Hd & _). congruence.
Qed.

(** A pattern that starts with [^] matches at the start or nowhere. *)
Lemma search_from_Bol rest (s : string) :
  search_from (Bol :: rest) false s = None.
Proof. induction s as [|c s IH]; simpl; [reflexivity | now rewrite IH]. Qed.

Lemma search_Bol_is_Some rest (s : string) :
  is_Some (search (Bol :: rest) s) <-> is_Some (run rest true s).
Proof.
  unfold search. destruct s as [|c s]; simpl.
  - destruct (run rest true ""); split; intros [x Hx]; eauto; discriminate.
  - rewrite search_from_Bol.
    destruct (run rest true (String c s)); split; intros [x Hx]; eauto;
      discriminate.
Qed.

End Matcher.

(** ** The address pattern *)

Section AddressPattern.
Import Re.

Lemma reEmail_items :
  _reEmail =
  [Bol; Plus (NotInSet "@"); One (Chr "@"); Plus (NotInSet "@");
   One (Chr "."); Plus (NotInSet "@"); Eol].
Proof. reflexivity. Qed.

Lemma reEmail_strict_items :
  reEmail_strict =
  [Bol; Plus (NotInSet "@"); One (Chr "@"); Plus (NotInSet "@");
   One (Chr "."); Plus (NotInSet "@"); Eos].
Proof. reflexivity. Qed.

Lemma all_not_at (u : string) : all_chars (accepts (NotInSet "@")) u = no_at u.
Proof.
  apply all_chars_ext. intros c. simpl. now rewrite orb_false_r.
Qed.

(** The five middle items of the pattern, whatever comes last. *)
Lemma address_shape fin b0 (s : string) :
  is_Some (run (Plus (NotInSet "@") :: One (Chr "@") :: Plus (NotInSet "@")
                  :: One (Chr ".") :: Plus (NotInSet "@") :: fin) b0 s) <->
  exists a b c t : string,
    s = a +:+ "@" +:+ b +:+ "." +:+ c +:+ t /\
    nonempty a = true /\ nonempty b = true /\ nonempty c = true /\
    no_at a = true /\ no_at b = true /\ no_at c = true /\
    is_Some (run fin false t).
Proof.
  split.
  - intros H.
    apply run_Plus_is_Some in H as (a & v1 & E1 & Na & Aa & H).
    apply run_One_is_Some in H as (c1 & v2 & E2 & Hc1 & H).
    apply run_Plus_is_Some in H as (b & v3 & E3 & Nb & Ab & H).
    apply run_One_is_Some in H as (c2 & v4 & E4 & Hc2 & H).
    apply run_Plus_is_Some in H as (c & t & E5 & Nc & Ac & H).
    simpl in Hc1, Hc2.
    apply Ascii.eqb_eq in Hc1. apply Ascii.eqb_eq in Hc2.
    rewrite all_not_at in Aa, Ab, Ac.
    exists a, b, c, t. subst. repeat split; auto.
  - intros (a & b & c & t & E & Na & Nb & Nc & Aa & Ab & Ac & H).
    rewrite <- all_not_at in Aa, Ab, Ac.
    apply run_Plus_is_Some. exists a, ("@" +:+ b +:+ "." +:+ c +:+ t).
    repeat split; auto.
    apply run_One_is_Some. exists "@"%char, (b +:+ "." +:+ c +:+ t).
    repeat split; auto.
    apply run_Plus_is_Some. exists b, ("." +:+ c +:+ t).
    repeat split; auto.
    apply run_One_is_Some. exists "."%char, (c +:+ t).
    repeat split; auto.
    apply run_Plus_is_Some. exists c, t. repeat split; auto.
Qed.

Lemma run_Eol_is_Some b (t : string) :
  is_Some (run [Eol] b t) <-> t = "" \/ t = String LF "".
Proof.
  simpl. destruct t as [|c [|d t]]; simpl.
  - split; eauto.
  - destruct (Ascii.eqb_spec c LF) as [->|Hne].
    + split; eauto.
    + split.
      * intros [x Hx]. discriminate.
      * intros [H|H]; [discriminate | congruence].
  - split.
    + intros [x Hx]. discriminate.
    + intros [H|H]; discriminate.
Qed.

Lemma run_Eos_is_Some b (t : string) : is_Some (run [Eos] b t) <-> t = "".
Proof.
  simpl. destruct t as [|c t]; simpl.
  - split; eauto.
  - split; [intros [x Hx]; discriminate | discriminate].
Qed.

Lemma no_at_LF (c : string) : no_at c = true -> no_at (c +:+ String LF "") = true.
Proof.
  intros H. unfold no_at in *. rewrite all_chars_app, H. reflexivity.
Qed.

Lemma nonempty_app_l (a b : string) : nonempty a = true -> nonempty (a +:+ b) = true.
Proof. destruct a; simpl; [discriminate | reflexivity]. Qed.

Lemma validate_is_search (s : string) :
  validateEmailAddress s = true <-> is_Some (search _reEmail s).
Proof.
  unfold validateEmailAddress. destruct (search _reEmail s).
  - split; eauto.
  - split; [discriminate | intros [x Hx]; discriminate].
Qed.

(** [validateEmailAddress] accepts exactly the strings of the
    permissive form. *)
Lemma validateEmailAddress_iff (s : string) :
  validateEmailAddress s = true <-> permissive_form s.
Proof.
  rewrite validate_is_search, reEmail_items, search_Bol_is_Some, address_shape.
  split.
  - intros (a & b & c & t & E & Na & Nb & Nc & Aa & Ab & Ac & H).
    apply run_Eol_is_Some in H as [-> | ->].
    + exists a, b, c. rewrite app_nil_r_s in E. auto 10.
    + exists a, b, (c +:+ String LF "").
      repeat split; auto using no_at_LF, nonempty_app_l.
  - intros (a & b & c & E & Na & Nb & Nc & Aa & Ab & Ac).
    exists a, b, c, "". rewrite app_nil_r_s.
    repeat split; auto; try (apply run_Eol_is_Some; now left).
Qed.

(** With [\Z] for [$] the pattern accepts the same strings. *)
Lemma strict_iff (s : string) :
  is_Some (search reEmail_strict s) <-> permissive_form s.
Proof.
  rewrite reEmail_strict_items, search_Bol_is_Some, address_shape.
  split.
  - intros (a & b & c & t & E & Na & Nb & Nc & Aa & Ab & Ac & H).
    apply run_Eos_is_Some in H as ->.
    exists a, b, c. rewrite app_nil_r_s in E. auto 10.
  - intros (a & b & c & E & Na & Nb & Nc & Aa & Ab & Ac).
    exists a, b, c, "". rewrite app_nil_r_s.
    repeat split; auto; try (now apply run_Eos_is_Some).
Qed.

Lemma validate_false_iff (s : string) :
  validateEmailAddress s = false <-> ~ permissive_form s.
Proof.
  rewrite <- validateEmailAddress_iff.
  destruct (validateEmailAddress s); split; congruence.
Qed.

Lemma permissive_form_one_at (s : string) :
  permissive_form s -> count_char "@" s = 1.
Proof.
  intros (a & b & c & -> & _ & _ & _ & Aa & Ab & Ac).
  rewrite !count_char_app. simpl.
  rewrite (no_at_count a), (no_at_count b), (no_at_count c); auto.
Qed.

Lemma permissive_form_dot_after_at (s : string) :
  permissive_form s ->
  exists t, after_first "@" s = Some t /\ mem "." t = true.
Proof.
  intros (a & b & c & -> & _ & _ & _ & Aa & _ & _).
  exists (b +:+ "." +:+ c). split.
  - now apply (no_at_after_first a).
  - rewrite mem_app. simpl. apply orb_true_r.
Qed.

End AddressPattern.

(** C2. For every string [s]: [validateEmailAddress s] is true when [s]
    has the permissive form (non-@ characters, @, non-@ characters, a
    dot, non-@ characters); it is false when [s] holds no @, when it
    holds two or more, and when no dot follows the first @. The method
    is a function of the address alone: it reads the compiled pattern
    and takes or returns no object state. *)
Theorem validateEmailAddress_spec (s : string) :
  (permissive_form s -> validateEmailAddress s = true) /\
  (count_char "@" s = 0 -> validateEmailAddress s = false) /\
  (2 <= count_char "@" s -> validateEmailAddress s = false) /\
  (forall t, after_first "@" s = Some t -> mem "." t = false ->
             validateEmailAddress s = false).
Proof.
  split; [apply validateEmailAddress_iff|].
  split; [|split].
  - intros H. apply validate_false_iff. intros F.
    apply permissive_form_one_at in F. lia.
  - intros H. apply validate_false_iff. intros F.
    apply permissive_form_one_at in F. lia.
  - intros t Ht Hdot. apply validate_false_iff. intros F.
    apply permissive_form_dot_after_at in F as (t' & Ht' & Hm).
    congruence.
Qed.

Lemma validateEmailAddress_spec_witness :
  validateEmailAddress "a@b.com" = true /\
  validateEmailAddress "a.com" = false /\
  validateEmailAddress "a@@b.com" = false /\
  validateEmailAddress "a@bcom" = false.
Proof.
  destruct (validateEmailAddress_spec "a@b.com") as (H1 & _).
  destruct (validateEmailAddress_spec "a.com") as (_ & H2 & _).
  destruct (validateEmailAddress_spec "a@@b.com") as (_ & _ & H3 & _).
  destruct (validateEmailAddress_spec "a@bcom") as (_ & _ & _ & H4).
  split; [|split; [|split]].
  - apply H1. exists "a", "b", "com". repeat split; reflexivity.
  - apply H2. reflexivity.
  - apply H3. simpl. lia.
  - apply (H4 "bcom"); reflexivity.
Defined.

(** C9 (as amended). When [m] is accepted, so is [m] followed by one
    newline; and that string has the permissive form itself, the newline
    being one more non-@ character of its last run, so that it is
    accepted with [\Z] in the place of [$] as well. *)
Theorem trailing_newline_accepted (m : string) :
  validateEmailAddress m = true ->
  validateEmailAddress (m +:+ String LF "") = true /\
  permissive_form (m +:+ String LF "") /\
  is_Some (Re.search reEmail_strict (m +:+ String LF "")).
Proof.
  intros H. apply validateEmailAddress_iff in H.
  assert (F : permissive_form (m +:+ String LF "")).
  { destruct H as (a & b & c & -> & Na & Nb & Nc & Aa & Ab & Ac).
    exists a, b, (c +:+ String LF "").
    repeat (rewrite app_assoc_s; simpl).
    repeat split; auto using no_at_LF, nonempty_app_l. }
  split; [now apply validateEmailAddress_iff|].
  split; [exact F | now apply strict_iff].
Qed.

Lemma trailing_newline_accepted_witness :
  validateEmailAddress ("a@b.com" +:+ String LF "") = true /\
  permissive_form ("a@b.com" +:+ String LF "") /\
  is_Some (Re.search reEmail_strict ("a@b.com" +:+ String LF "")).
Proof. apply (trailing_newline_accepted "a@b.com"). reflexivity. Defined.

(** C9, the claim as it stands: it says that an accepted address
    followed by a newline does not have the permissive form. The
    address a@b.com followed by a newline has it: its last run is com
    and the newline. *)
Lemma trailing_newline_has_the_form :
  validateEmailAddress "a@b.com" = true /\
  permissive_form ("a@b.com" +:+ String LF "").
Proof.
  split; [reflexivity|].
  exists "a", "b", ("com" +:+ String LF ""). repeat split; reflexivity.
Qed.

(** ** Setters *)

Lemma extend_recipients_nil type (self : Email) :
  extend_recipients type [] self = self.
Proof.
  unfold extend_recipients, set_cc, set_bcc, set_to.
  destruct self; simpl.
  destruct (String.eqb type "CC"); [now rewrite app_nil_r|].
  destruct (String.eqb type "BCC"); now rewrite app_nil_r.
Qed.

Lemma extend_recipients_cons type x l (self : Email) :
  extend_recipients type l (extend_recipients type [x] self) =
  extend_recipients type (x :: l) self.
Proof.
  unfold extend_recipients, set_cc, set_bcc, set_to.
  destruct self; simpl.
  destruct (String.eqb type "CC"); simpl; [now rewrite <- app_assoc|].
  destruct (String.eqb type "BCC"); simpl; now rewrite <- app_assoc.
Qed.

Lemma addRecipient_valid address type (self : Email) :
  validateEmailAddress address = true ->
  addRecipient address type self = (inr tt, extend_recipients type [address] self).
Proof.
  intros H. unfold addRecipient, extend_recipients. rewrite H. simpl.
  destruct (String.eqb type "CC"); [reflexivity|].
  destruct (String.eqb type "BCC"); reflexivity.
Qed.

Lemma addRecipient_invalid address type (self : Email) :
  validateEmailAddress address = false ->
  addRecipient address type self = (inl (InvalidAddress type address), self).
Proof. intros H. unfold addRecipient. now rewrite H. Qed.

(** The loop of [addRecipients] over fragments that are all valid. *)
Lemma for_each_valid type (l : list string) : forall self : Email,
  Forall valid l ->
  for_each l (fun a => addRecipient a type) self =
  (inr tt, extend_recipients type l self).
Proof.
  induction l as [|x l IH]; intros self H.
  - simpl. now rewrite extend_recipients_nil.
  - inversion H as [|? ? Hx Hl]; subst. simpl. unfold bind.
    rewrite (addRecipient_valid x type self Hx).
    rewrite (IH _ Hl). now rewrite extend_recipients_cons.
Qed.

(** The loop stops at the first invalid fragment, with the fragments
    before it added. *)
Lemma for_each_invalid type (pre : list string) bad post : forall self : Email,
  Forall valid pre ->
  validateEmailAddress bad = false ->
  for_each (pre ++ bad :: post) (fun a => addRecipient a type) self =
  (inl (InvalidAddress type bad), extend_recipients type pre self).
Proof.
  induction pre as [|x pre IH]; intros self H Hbad.
  - simpl. unfold bind. rewrite (addRecipient_invalid bad type self Hbad).
    now rewrite extend_recipients_nil.
  - inversion H as [|? ? Hx Hl]; subst. simpl. unfold bind.
    rewrite (addRecipient_valid x type self Hx).
    rewrite (IH _ Hl Hbad). now rewrite extend_recipients_cons.
Qed.

(** Closes [Forall valid l] for a list [l] of closed strings. *)
Ltac all_valid :=
  repeat (apply List.Forall_cons; [vm_compute; reflexivity|]);
  apply List.Forall_nil.

Lemma re_split_address (s : string) :
  re_split ("[" +:+ _addressDelimiters +:+ "]\s*") s =
  inr (Re.split address_delimiter s).
Proof. reflexivity. Qed.

Lemma addRecipients_loop addressList type (self : Email) :
  addRecipients addressList type self =
  for_each (address_fragments addressList)
           (fun a => addRecipient a (default "TO" type)) self.
Proof.
  unfold addRecipients. rewrite re_split_address.
  destruct type; reflexivity.
Qed.

(** ** Splitting on delimiters *)

Section Splitting.
Import Re.
Variable delims : string.

Lemma lstrip_decompose cs (s : string) :
  exists ws, s = ws +:+ lstrip cs s /\
             all_chars (fun c => mem c cs) ws = true /\
             starts_with cs (lstrip cs s) = false.
Proof.
  induction s as [|c s (ws & E & Hws & Hst)]; simpl.
  - exists "". auto.
  - destruct (mem c cs) eqn:Hc.
    + exists (String c ws). simpl. rewrite Hc, Hws, <- E. auto.
    + exists "". simpl. auto.
Qed.

Lemma many_space_all b (s : string) :
  many (accepts Space) (run []) b s = Some (lstrip whitespace s).
Proof.
  revert b. induction s as [|c s IH]; intros b; [reflexivity|].
  cbn [many lstrip accepts].
  destruct (mem c whitespace); [now rewrite IH | reflexivity].
Qed.

Lemma run_delimiter b (s : string) :
  run (delimiter delims) b s =
  match s with
  | String c s' => if mem c delims then Some (lstrip whitespace s') else None
  | EmptyString => None
  end.
Proof.
  destruct s as [|c s]; [reflexivity|].
  cbn [delimiter run accepts]. destruct (mem c delims); [|reflexivity].
  apply many_space_all.
Qed.

Lemma search_from_delimiter_None (s : string) : forall b,
  search_from (delimiter delims) b s = None ->
  all_chars (fun c => negb (mem c delims)) s = true.
Proof.
  induction s as [|c s IH]; intros b H; [reflexivity|].
  cbn [search_from] in H. rewrite run_delimiter in H. simpl.
  destruct (mem c delims); [discriminate|].
  destruct (search_from (delimiter delims) false s) as [[pre r]|] eqn:Hs;
    [discriminate|].
  simpl. now apply (IH false).
Qed.

Lemma search_from_delimiter_Some (s : string) : forall b pre r,
  search_from (delimiter delims) b s = Some (pre, r) ->
  exists d ws,
    s = pre +:+ String d (ws +:+ r) /\
    all_chars (fun c => negb (mem c delims)) pre = true /\
    mem d delims = true /\
    all_chars (fun c => mem c whitespace) ws = true /\
    starts_with whitespace r = false.
Proof.
  induction s as [|c s IH]; intros b pre r H.
  - discriminate.
  - cbn [search_from] in H. rewrite run_delimiter in H.
    destruct (mem c delims) eqn:Hc.
    + injection H as <- <-.
      destruct (lstrip_decompose whitespace s) as (ws & E & Hws & Hst).
      exists c, ws. simpl. rewrite <- E. auto.
    + destruct (search_from (delimiter delims) false s) as [[pre' r']|] eqn:Hs;
        [|discriminate].
      injection H as <- <-.
      destruct (IH false pre' r' Hs) as (d & ws & E & Hpre & Hd & Hws & Hst).
      exists d, ws. simpl. rewrite Hc, Hpre, <- E. auto.
Qed.

(** With fuel above the length of the subject, the loop of [split]
    yields the pieces between the delimiters. *)
Lemma split_loop_Splits (n : nat) : forall b (s : string),
  String.length s < n ->
  Splits delims s (split_loop n (delimiter delims) b "" s).
Proof.
  induction n as [|n IH]; intros b s Hn; [lia|].
  cbn [split_loop].
  destruct (search_from (delimiter delims) b s) as [[pre r]|] eqn:Hs.
  - destruct (search_from_delimiter_Some s b pre r Hs)
      as (d & ws & E & Hpre & Hd & Hws & Hst).
    assert (Hlen : String.length pre + String.length r < String.length s).
    { rewrite E, length_app_s. simpl. rewrite length_app_s. lia. }
    apply Nat.ltb_lt in Hlen as Hlt. rewrite Hlt. simpl.
    rewrite E at 1. apply Splits_piece; auto.
    apply IH. lia.
  - simpl. apply Splits_last. now apply (search_from_delimiter_None s b).
Qed.

Lemma split_Splits (s : string) : Splits delims s (split (delimiter delims) s).
Proof. apply split_loop_Splits. lia. Qed.

(** The pieces are determined by the subject. *)
Lemma no_delimiter_inside (f f' : string) d (t : string) :
  all_chars (fun c => negb (mem c delims)) f = true ->
  mem d delims = true ->
  f <> f' +:+ String d t.
Proof.
  intros Hf Hd E. rewrite E, all_chars_app in Hf. simpl in Hf.
  rewrite Hd in Hf. simpl in Hf. now rewrite andb_false_r in Hf.
Qed.

Lemma first_delimiter_unique (f : string) : forall (f' : string) d d' t t',
  all_chars (fun c => negb (mem c delims)) f = true ->
  all_chars (fun c => negb (mem c delims)) f' = true ->
  mem d delims = true -> mem d' delims = true ->
  f +:+ String d t = f' +:+ String d' t' ->
  f = f' /\ d = d' /\ t = t'.
Proof.
  induction f as [|c f IH]; intros [|c' f'] d d' t t' Hf Hf' Hd Hd' E;
    simpl in *.
  - injection E as -> ->. auto.
  - injection E as -> _. rewrite Hd in Hf'. discriminate.
  - injection E as -> _. rewrite Hd' in Hf. discriminate.
  - injection E as -> E.
    apply andb_prop in Hf as [_ Hf]. apply andb_prop in Hf' as [_ Hf'].
    destruct (IH f' d d' t t' Hf Hf' Hd Hd' E) as (-> & -> & ->). auto.
Qed.

Lemma whitespace_run_unique (ws : string) : forall ws' rest rest' : string,
  all_chars (fun c => mem c whitespace) ws = true ->
  all_chars (fun c => mem c whitespace) ws' = true ->
  starts_with whitespace rest = false ->
  starts_with whitespace rest' = false ->
  ws +:+ rest = ws' +:+ rest' ->
  ws = ws' /\ rest = rest'.
Proof.
  induction ws as [|c ws IH]; intros [|c' ws'] rest rest' Hw Hw' Hr Hr' E.
  - auto.
  - change (rest = String c' (ws' +:+ rest')) in E. subst rest.
    change (all_chars (fun c => mem c whitespace) (String c' ws'))
      with (mem c' whitespace && all_chars (fun c => mem c whitespace) ws')
      in Hw'.
    apply andb_prop in Hw' as [Hc _].
    change (starts_with whitespace (String c' (ws' +:+ rest')))
      with (mem c' whitespace) in Hr. congruence.
  - change (String c (ws +:+ rest) = rest') in E. subst rest'.
    change (all_chars (fun c => mem c whitespace) (String c ws))
      with (mem c whitespace && all_chars (fun c => mem c whitespace) ws)
      in Hw.
    apply andb_prop in Hw as [Hc _].
    change (starts_with whitespace (String c (ws +:+ rest)))
      with (mem c whitespace) in Hr'. congruence.
  - change (String c (ws +:+ rest) = String c' (ws' +:+ rest')) in E.
    injection E as -> E.
    change (all_chars (fun c => mem c whitespace) (String c' ws))
      with (mem c' whitespace && all_chars (fun c => mem c whitespace) ws)
      in Hw.
    change (all_chars (fun c => mem c whitespace) (String c' ws'))
      with (mem c' whitespace && all_chars (fun c => mem c whitespace) ws')
      in Hw'.
    apply andb_prop in Hw as [_ Hw]. apply andb_prop in Hw' as [_ Hw'].
    destruct (IH ws' rest rest' Hw Hw' Hr Hr' E) as (-> & ->). auto.
Qed.

Lemma Splits_functional (s : string) fs :
  Splits delims s fs -> forall fs', Splits delims s fs' -> fs = fs'.
Proof.
  induction 1 as [f Hf|f d ws rest fs Hf Hd Hws Hrest Hsplit IH];
    intros fs' H'.
  - inversion H' as [f' Hf' E1 E2|f' d' ws' rest' fs1 Hf' Hd' Hws' Hrest' H1 E1 E2];
      subst; [reflexivity|].
    exfalso. exact (no_delimiter_inside _ _ _ _ Hf Hd' eq_refl).
  - inversion H' as [f' Hf' E1 E2|f' d' ws' rest' fs1 Hf' Hd' Hws' Hrest' H1 E1 E2];
      subst.
    + exfalso. exact (no_delimiter_inside _ _ _ _ Hf' Hd eq_refl).
    + destruct (first_delimiter_unique _ _ _ _ _ _ Hf' Hf Hd' Hd E1)
        as (-> & -> & E).
      destruct (whitespace_run_unique _ _ _ _ Hws' Hws Hrest' Hrest E)
        as (-> & ->).
      f_equal. now apply IH.
Qed.

(** [split] is the only list of pieces. *)
Lemma Splits_split (s : string) fs :
  Splits delims s fs <-> fs = split (delimiter delims) s.
Proof.
  split.
  - intros H. exact (Splits_functional s fs H _ (split_Splits s)).
  - intros ->. apply split_Splits.
Qed.

End Splitting.

Lemma address_fragments_unique (addressList : string) fs :
  Splits _addressDelimiters (strip _addressDelimiters addressList) fs <->
  fs = address_fragments addressList.
Proof. apply Splits_split. Qed.

(** C4 (as amended). [addRecipients] trims commas, line feeds and
    carriage returns from both ends of the list and cuts what is left at
    every such character, taken with the whitespace that follows it:
    there is one list of fragments that [Splits] describes. It calls
    [addRecipient] on each fragment in order, the empty ones too, with
    the kind [TO] when none is given. When every fragment is a valid
    address they all end up, in order, at the end of the list of that
    kind; so the list of the specification's example yields its three
    addresses. *)
Theorem addRecipients_spec (self : Email) :
  (forall addressList type,
     exists fragments,
       (forall fs,
          Splits _addressDelimiters (strip _addressDelimiters addressList) fs <->
          fs = fragments) /\
       addRecipients addressList type self =
         for_each fragments
                  (fun a => addRecipient a (default "TO" type)) self /\
       (Forall valid fragments ->
        addRecipients addressList type self =
          (inr tt, extend_recipients (default "TO" type) fragments self))) /\
  addRecipients ("a@b.com, c@d.com" +:+ String LF "e@f.com") None self =
    (inr tt, set_to (_to self ++ ["a@b.com"; "c@d.com"; "e@f.com"]) self).
Proof.
  assert (G : forall addressList type,
             Forall valid (address_fragments addressList) ->
             addRecipients addressList type self =
               (inr tt, extend_recipients (default "TO" type)
                          (address_fragments addressList) self)).
  { intros addressList type H.
    rewrite addRecipients_loop. now apply for_each_valid. }
  split.
  - intros addressList type. exists (address_fragments addressList).
    split; [intros fs; apply address_fragments_unique|].
    split; [apply addRecipients_loop | apply G].
  - rewrite G.
    + replace (address_fragments ("a@b.com, c@d.com" +:+ String LF "e@f.com"))
        with ["a@b.com"; "c@d.com"; "e@f.com"] by (vm_compute; reflexivity).
      reflexivity.
    + replace (address_fragments ("a@b.com, c@d.com" +:+ String LF "e@f.com"))
        with ["a@b.com"; "c@d.com"; "e@f.com"] by (vm_compute; reflexivity).
      all_valid.
Qed.

Lemma addRecipients_spec_witness :
  addRecipients "x@y.org,z@y.org" (Some "CC") fresh =
    (inr tt, set_cc ["x@y.org"; "z@y.org"] fresh).
Proof.
  destruct (addRecipients_spec fresh) as [H _].
  destruct (H "x@y.org,z@y.org" (Some "CC")) as (fragments & Hs & _ & G).
  assert (E : ["x@y.org"; "z@y.org"] = fragments).
  { apply Hs. apply address_fragments_unique. vm_compute. reflexivity. }
  subst fragments. rewrite G; [reflexivity | all_valid].
Defined.

(** C4, the claim as it stands: it has the empty fragments discarded.
    Between two commas there is an empty fragment, and [addRecipient]
    is called on it: the call raises, after the address before it has
    been added and with the one after it left out. *)
Lemma addRecipients_keeps_empty_fragment :
  Splits _addressDelimiters (strip _addressDelimiters "a@b.com,,c@d.com")
         ["a@b.com"; ""; "c@d.com"] /\
  fst (addRecipients "a@b.com,,c@d.com" None fresh) =
    inl (InvalidAddress "TO" "") /\
  _to (after (addRecipients "a@b.com,,c@d.com" None) fresh) = ["a@b.com"].
Proof.
  split; [|split; reflexivity].
  apply address_fragments_unique. vm_compute. reflexivity.
Qed.

(** C7 (as amended). [setFrom], [setReplyTo] and [addRecipient] given an
    invalid address raise [InvalidAddress] and leave the object as it
    was. [addRecipients] raises [InvalidAddress] at its first invalid
    fragment: the fragments before that one have been added by then,
    the fragments after it are not looked at. *)
Theorem invalid_address_fails_fast (self : Email) :
  (forall address,
     validateEmailAddress address = false ->
     setFrom address self = (inl (InvalidAddress "FROM" address), self) /\
     setReplyTo address self = (inl (InvalidAddress "REPLY-TO" address), self) /\
     (forall type,
        addRecipient address type self =
          (inl (InvalidAddress type address), self))) /\
  (forall addressList type pre bad post,
     Splits _addressDelimiters (strip _addressDelimiters addressList)
            (pre ++ bad :: post) ->
     Forall valid pre ->
     validateEmailAddress bad = false ->
     addRecipients addressList type self =
       (inl (InvalidAddress (default "TO" type) bad),
        extend_recipients (default "TO" type) pre self)).
Proof.
  split.
  - intros address H. split; [|split].
    + unfold setFrom. now rewrite H.
    + unfold setReplyTo. now rewrite H.
    + intros type. now apply addRecipient_invalid.
  - intros addressList type pre bad post E Hpre Hbad.
    apply address_fragments_unique in E.
    rewrite addRecipients_loop, <- E. now apply for_each_invalid.
Qed.

Lemma invalid_address_fails_fast_witness :
  (setFrom "nobody" fresh = (inl (InvalidAddress "FROM" "nobody"), fresh) /\
   setReplyTo "nobody" fresh = (inl (InvalidAddress "REPLY-TO" "nobody"), fresh) /\
   (forall type,
      addRecipient "nobody" type fresh =
        (inl (InvalidAddress type "nobody"), fresh))) /\
  addRecipients "a@b.com, nobody, c@d.com" (Some "BCC") fresh =
    (inl (InvalidAddress "BCC" "nobody"), set_bcc ["a@b.com"] fresh).
Proof.
  destruct (invalid_address_fails_fast fresh) as [H1 H2].
  split.
  - apply (H1 "nobody"). reflexivity.
  - apply (H2 "a@b.com, nobody, c@d.com" (Some "BCC")
              ["a@b.com"] "nobody" ["c@d.com"]).
    + apply address_fragments_unique. vm_compute. reflexivity.
    + all_valid.
    + vm_compute. reflexivity.
Defined.

(** C7, the claim as it stands: it has [addRecipients] leave the
    recipient lists as they were when a later fragment is invalid. The
    first address of this list is in [_to] when the second one makes
    the call raise. *)
Lemma addRecipients_partial_state :
  validateEmailAddress "bad" = false /\
  fst (addRecipients "a@b.com, bad" None fresh) =
    inl (InvalidAddress "TO" "bad") /\
  _to fresh = [] /\
  _to (after (addRecipients "a@b.com, bad" None) fresh) = ["a@b.com"].
Proof. repeat split; reflexivity. Qed.

(** C8 (as amended). [addAttachment] with Python's [None] for the path
    returns without a change and without an error. With a path, the
    empty string included, it appends the pair of path and display
    name; it has no access to the disk. *)
Theorem addAttachment_spec (self : Email) (attachname : option string) :
  addAttachment None attachname self = (inr tt, self) /\
  (forall filepath : string,
     addAttachment (Some filepath) attachname self =
       (inr tt, set_attach (_attach self ++ [(filepath, attachname)]) self)).
Proof. split; [reflexivity | intros filepath; reflexivity]. Qed.

(** C8, the claim as it stands: it has the empty path a no-op. The
    empty path is appended. *)
Lemma addAttachment_empty_path :
  _attach fresh = [] /\
  fst (addAttachment (Some "") None fresh) = inr tt /\
  _attach (after (addAttachment (Some "") None) fresh) = [("", None)].
Proof. repeat split; reflexivity. Qed.

(** *** Who assigns [_from] *)

Lemma for_each_from {A} (l : list A) (body : A -> M unit) :
  (forall x self, _from (after (body x) self) = _from self) ->
  forall self, _from (after (for_each l body) self) = _from self.
Proof.
  intros H. induction l as [|x l IH]; intros self; [reflexivity|].
  specialize (H x self). unfold after in *. simpl. unfold bind.
  destruct (body x self) as [[e|u] self']; simpl in *; [exact H|].
  now rewrite IH.
Qed.

Lemma addRecipient_from address type (self : Email) :
  _from (after (addRecipient address type) self) = _from self.
Proof.
  unfold after, addRecipient.
  destruct (validateEmailAddress address); simpl; [|reflexivity].
  destruct (String.eqb type "CC"); [reflexivity|].
  destruct (String.eqb type "BCC"); reflexivity.
Qed.

(** [_from] is not there in a new object, and no method but a [setFrom]
    that returns puts it there: a [setFrom] that raises, and every other
    method, leave [_from] as it was. *)
Lemma from_assigned_by_setFrom_only (self : Email) :
  (forall smtpServer smtpPort hostname username password debugLevel,
     _from (__init__ smtpServer smtpPort hostname username password debugLevel)
     = None) /\
  (forall address,
     validateEmailAddress address = false ->
     _from (after (setFrom address) self) = _from self) /\
  (forall text, _from (after (setSubject text) self) = _from self) /\
  (forall text, _from (after (setTextBody text) self) = _from self) /\
  (forall text, _from (after (setHtmlBody text) self) = _from self) /\
  (forall address, _from (after (setReplyTo address) self) = _from self) /\
  (forall address type,
     _from (after (addRecipient address type) self) = _from self) /\
  (forall addressList type,
     _from (after (addRecipients addressList type) self) = _from self) /\
  _from (after clearRecipients self) = _from self /\
  _from (after clearAttachments self) = _from self /\
  (forall filepath attachname,
     _from (after (addAttachment filepath attachname) self) = _from self) /\
  (forall filepathList,
     _from (after (addAttachments filepathList) self) = _from self).
Proof.
  repeat split; try reflexivity.
  - intros address H. unfold after, setFrom. now rewrite H.
  - intros address. unfold after, setReplyTo.
    destruct (validateEmailAddress address); reflexivity.
  - intros address type. apply addRecipient_from.
  - intros addressList type. unfold after. rewrite addRecipients_loop.
    exact (for_each_from _ _ (fun x s => addRecipient_from x _ s) self).
  - intros [filepath|] attachname; reflexivity.
  - intros filepathList. unfold addAttachments.
    destruct (re_split _ _) as [e|fragments]; [reflexivity|].
    exact (for_each_from fragments
             (fun thisFile => addAttachment (Some thisFile) None)
             (fun x s => eq_refl) self).
Qed.

(** ** [send] *)

Lemma io_bind_raise {A B} t e (f : A -> IO B) : io_bind (t, inl e) f = (t, inl e).
Proof. reflexivity. Qed.

Lemma io_bind_value {A B} t (a : A) (f : A -> IO B) :
  io_bind (t, inr a) f = (t ++ fst (f a), snd (f a)).
Proof. simpl. now destruct (f a). Qed.

Lemma io_bind_lift {A B} (a : A) (f : A -> IO B) : io_bind (io_lift (inr a)) f = f a.
Proof. unfold io_lift. rewrite io_bind_value. now destruct (f a). Qed.

Lemma io_bind_ret {A B} (a : A) (f : A -> IO B) : io_bind (io_ret a) f = f a.
Proof. apply io_bind_lift. Qed.

Lemma validate_message_ok (self : Email) :
  (_textBody self <> None \/ _htmlBody self <> None) ->
  _to self <> [] ->
  validate_message self = io_ret tt.
Proof.
  intros Hb Ht. unfold validate_message.
  destruct (_textBody self), (_htmlBody self), (_to self);
    simpl; try reflexivity; try congruence.
  destruct Hb; congruence.
Qed.

(** C1. Whatever the state of the message: with neither body set [send]
    raises [MissingBody], also when there is no recipient either; with
    a body set and an empty [_to] it raises [MissingRecipient]. Either
    error comes before any access to an attachment file and before any
    call on the network: the log of [send] is empty. *)
Theorem send_preconditions (w : World) (self : Email) :
  (_textBody self = None -> _htmlBody self = None ->
   send w self = ([], inl MissingBody)) /\
  ((_textBody self <> None \/ _htmlBody self <> None) -> _to self = [] ->
   send w self = ([], inl MissingRecipient)).
Proof.
  split.
  - intros Ht Hh. unfold send, validate_message. now rewrite Ht, Hh.
  - intros Hb Hto. unfold send, validate_message. rewrite Hto.
    destruct (_textBody self), (_htmlBody self); simpl; try reflexivity.
    destruct Hb; congruence.
Qed.

Lemma send_preconditions_witness :
  send example_world fresh = ([], inl MissingBody) /\
  send example_world (after (setTextBody "hello") fresh) =
    ([], inl MissingRecipient).
Proof.
  split.
  - apply (send_preconditions example_world fresh); reflexivity.
  - apply (send_preconditions example_world (after (setTextBody "hello") fresh)).
    + left. discriminate.
    + reflexivity.
Defined.

(** *** The part for one attachment *)

Lemma no_smtp_app (t1 t2 : list event) : no_smtp t1 -> no_smtp t2 -> no_smtp (t1 ++ t2).
Proof. unfold no_smtp. intros H1 H2. apply Forall_app. auto. Qed.

Lemma no_smtp_not_sent (t : list event) f rc msg :
  no_smtp t -> ~ In (Sendmail f rc msg) t.
Proof.
  intros H Hin. unfold no_smtp in H. rewrite Forall_forall in H.
  apply list_elem_of_In in Hin. specialize (H _ Hin). discriminate.
Qed.

Ltac fs_only := unfold no_smtp; repeat constructor.

Lemma attachment_part_no_smtp w fname attachname :
  no_smtp (fst (attachment_part w fname attachname)).
Proof.
  unfold attachment_part, os_path_exists, os_path_isfile, read_file.
  unfold io_bind, io_raise, io_ret.
  destruct (path_exists w fname); simpl; [|fs_only].
  destruct (path_isfile w fname); simpl; [|fs_only].
  destruct (guess_type w fname) as [ct enc].
  destruct (split_slash _) as [|maintype [|subtype [|x l]]]; simpl;
    try fs_only.
  destruct (String.eqb maintype "text"), (String.eqb maintype "image"),
    (String.eqb maintype "audio"); simpl;
    destruct (fs w !! fname) as [[[|] data| ]|]; simpl; fs_only.
Qed.

Lemma attachment_part_missing w fname attachname :
  path_exists w fname = false ->
  attachment_part w fname attachname =
    ([FsExists fname], inl (AttachmentNotFound fname)).
Proof.
  intros H. unfold attachment_part, os_path_exists.
  rewrite io_bind_value. now rewrite H.
Qed.

Lemma attachment_part_not_file w fname attachname :
  path_exists w fname = true ->
  path_isfile w fname = false ->
  attachment_part w fname attachname =
    ([FsExists fname; FsIsFile fname], inl (AttachmentNotAFile fname)).
Proof.
  intros He Hf. unfold attachment_part, os_path_exists, os_path_isfile.
  rewrite io_bind_value, He. cbn [negb]. rewrite io_bind_value, Hf.
  reflexivity.
Qed.

Lemma attachment_part_bad w fname attachname :
  path_isfile w fname = false ->
  exists t e, attachment_part w fname attachname = (t, inl e).
Proof.
  intros Hf. destruct (path_exists w fname) eqn:He.
  - rewrite attachment_part_not_file; eauto.
  - rewrite attachment_part_missing; eauto.
Qed.

Lemma regular_file_paths w fname readable data :
  fs w !! fname = Some (RegularFile readable data) ->
  path_exists w fname = true /\ path_isfile w fname = true.
Proof.
  intros H. unfold path_exists, path_isfile. rewrite H. split; [|reflexivity].
  apply bool_decide_eq_true. eauto.
Qed.

(** The part for a file whose type is not guessed, or is guessed with an
    encoding. *)
Lemma attachment_part_octet_stream w fname attachname data :
  fs w !! fname = Some (RegularFile true data) ->
  fst (guess_type w fname) = None \/ snd (guess_type w fname) <> None ->
  attachment_part w fname attachname =
    ([FsExists fname; FsIsFile fname; FsOpen fname "rb"],
     inr (MIME "application" "octet-stream" [disposition fname attachname]
            None (Payload (Some Base64) (Some data)))).
Proof.
  intros Hfs Hg.
  destruct (regular_file_paths _ _ _ _ Hfs) as [He Hf].
  unfold attachment_part, os_path_exists, os_path_isfile.
  rewrite io_bind_value, He. cbn [negb]. rewrite io_bind_value, Hf. cbn [negb].
  assert (E : (let (ctype0, encoding) := guess_type w fname in
               match ctype0, encoding with
               | Some ct, None => ct
               | _, _ => "application/octet-stream"
               end) = "application/octet-stream").
  { destruct (guess_type w fname) as [[ct|] [enc|]]; simpl in *;
      try reflexivity.
    destruct Hg; congruence. }
  destruct (guess_type w fname) as [ct0 enc0]. rewrite E.
  unfold read_file. rewrite Hfs. reflexivity.
Qed.

(** Every part that is built for an attachment has the
    Content-Disposition header. *)
Lemma attachment_part_disposition w fname attachname t part :
  attachment_part w fname attachname = (t, inr part) ->
  has_header (disposition fname attachname) part.
Proof.
  unfold attachment_part, os_path_exists, os_path_isfile, read_file.
  unfold io_bind, io_raise, io_ret.
  destruct (path_exists w fname); simpl; [|discriminate].
  destruct (path_isfile w fname); simpl; [|discriminate].
  destruct (guess_type w fname) as [ct enc].
  destruct (split_slash _) as [|maintype [|subtype [|x l]]]; simpl;
    try discriminate.
  destruct (String.eqb maintype "text"), (String.eqb maintype "image"),
    (String.eqb maintype "audio"); simpl;
    destruct (fs w !! fname) as [[[|] data| ]|]; simpl;
    try discriminate;
    intros H; injection H as _ <-; unfold has_header; simpl; auto.
Qed.

Lemma attachable_part w fname attachname :
  attachable w fname = true ->
  exists t part, attachment_part w fname attachname = (t, inr part).
Proof.
  unfold attachable, content_type. intros H.
  destruct (fs w !! fname) as [[[|] data| ]|] eqn:Hfs; try discriminate.
  destruct (regular_file_paths _ _ _ _ Hfs) as [He Hf].
  unfold attachment_part, os_path_exists, os_path_isfile.
  rewrite io_bind_value, He. cbn [negb]. rewrite io_bind_value, Hf. cbn [negb].
  unfold read_file. rewrite Hfs.
  destruct (guess_type w fname) as [[ct|] [enc|]]; simpl in *; eauto.
  destruct (split_slash ct) as [|maintype [|subtype [|x l]]];
    try discriminate.
  destruct (String.eqb maintype "text"), (String.eqb maintype "image"),
    (String.eqb maintype "audio"); simpl; eauto.
Qed.

(** *** The loop over the attachments *)

Lemma attach_multipart part (msg : mime) :
  is_multipart msg = true ->
  exists msg', attach part msg = inr msg' /\ is_multipart msg' = true.
Proof.
  destruct msg as [mt st h p [cte data|ps]]; simpl; [discriminate|].
  intros _. eexists. split; reflexivity.
Qed.

Lemma io_bind_no_smtp {A B} (m : IO A) (f : A -> IO B) :
  no_smtp (fst m) -> (forall a, no_smtp (fst (f a))) ->
  no_smtp (fst (io_bind m f)).
Proof.
  intros Hm Hf. destruct m as [t [e|a]]; simpl in *; [exact Hm|].
  specialize (Hf a). destruct (f a) as [t' r]. simpl in *.
  now apply no_smtp_app.
Qed.

Lemma io_bind_inv_value {A B} (m : IO A) (f : A -> IO B) t b :
  io_bind m f = (t, inr b) ->
  exists t1 a t2, m = (t1, inr a) /\ f a = (t2, inr b) /\ t = t1 ++ t2.
Proof.
  destruct m as [t1 [e|a]]; simpl; [discriminate|].
  destruct (f a) as [t2 r] eqn:Hf. intros H. injection H as <- ->.
  exists t1, a, t2. auto.
Qed.

Lemma io_fold_cons {A B} (f : B -> A -> IO B) x l b :
  io_fold f (x :: l) b = io_bind (f b x) (fun b' => io_fold f l b').
Proof. reflexivity. Qed.

Lemma attach_one_eq w msg fname attachname :
  attach_one w msg (fname, attachname) =
  io_bind (attachment_part w fname attachname)
          (fun part => io_lift (attach part msg)).
Proof. reflexivity. Qed.

Lemma attach_one_no_smtp w msg a : no_smtp (fst (attach_one w msg a)).
Proof.
  destruct a as [fname attachname]. rewrite attach_one_eq.
  apply io_bind_no_smtp; [apply attachment_part_no_smtp|].
  intros part. constructor.
Qed.

Lemma attach_one_inv w msg fname attachname t msg' :
  attach_one w msg (fname, attachname) = (t, inr msg') ->
  exists part, attachment_part w fname attachname = (t, inr part) /\
               attach part msg = inr msg'.
Proof.
  rewrite attach_one_eq. intros H.
  apply io_bind_inv_value in H as (t1 & part & t2 & Hp & Ha & ->).
  unfold io_lift in Ha. injection Ha as <- Ha.
  rewrite app_nil_r. eauto.
Qed.

Lemma attach_one_value w msg fname attachname t part msg' :
  attachment_part w fname attachname = (t, inr part) ->
  attach part msg = inr msg' ->
  attach_one w msg (fname, attachname) = (t, inr msg').
Proof.
  intros Hp Ha. rewrite attach_one_eq, Hp, io_bind_value. simpl.
  now rewrite Ha, app_nil_r.
Qed.

Lemma attach_one_raise w msg fname attachname t e :
  attachment_part w fname attachname = (t, inl e) ->
  attach_one w msg (fname, attachname) = (t, inl e).
Proof. intros Hp. now rewrite attach_one_eq, Hp. Qed.

Lemma io_fold_no_smtp w (l : list (string * option string)) : forall msg,
  no_smtp (fst (io_fold (attach_one w) l msg)).
Proof.
  induction l as [|a l IH]; intros msg.
  - constructor.
  - rewrite io_fold_cons.
    apply io_bind_no_smtp; [apply attach_one_no_smtp | exact IH].
Qed.

(** When the loop ends without an exception, the message has got the
    part of each attachment, in order. *)
Lemma io_fold_result w (l : list (string * option string)) : forall msg t msg',
  io_fold (attach_one w) l msg = (t, inr msg') ->
  exists parts, Forall2 (part_for w) l parts /\ attach_all parts msg = inr msg'.
Proof.
  induction l as [|[fname attachname] l IH]; intros msg t msg' H.
  - injection H as _ <-. exists []. split; [constructor | reflexivity].
  - rewrite io_fold_cons in H.
    apply io_bind_inv_value in H as (t1 & msg1 & t2 & H1 & Hf & ->).
    apply attach_one_inv in H1 as (part & Hp & Ha).
    destruct (IH _ _ _ Hf) as (parts & Hparts & Hall).
    exists (part :: parts). split.
    + constructor; [|exact Hparts]. exists t1. exact Hp.
    + simpl. now rewrite Ha.
Qed.


(** Attachments that can be attached go through. *)
Lemma io_fold_attachable w (l : list (string * option string)) : forall msg,
  Forall (fun a => attachable w (fst a) = true) l ->
  is_multipart msg = true ->
  exists t msg', io_fold (attach_one w) l msg = (t, inr msg') /\
                 is_multipart msg' = true.
Proof.
  induction l as [|[fname attachname] l IH]; intros msg H Hm.
  - simpl. eauto.
  - inversion H as [|? ? Ha Hl]; subst. simpl in Ha.
    destruct (attachable_part w fname attachname Ha) as (t0 & part & Hp).
    destruct (attach_multipart part msg Hm) as (msg1 & Hatt & Hm1).
    destruct (IH msg1 Hl Hm1) as (t1 & msg' & Hf & Hm').
    rewrite io_fold_cons, (attach_one_value _ _ _ _ _ _ _ Hp Hatt).
    rewrite io_bind_value, Hf. simpl. eauto.
Qed.

Lemma io_fold_app {A B} (f : B -> A -> IO B) (l1 l2 : list A) : forall b,
  io_fold f (l1 ++ l2) b = io_bind (io_fold f l1 b) (io_fold f l2).
Proof.
  induction l1 as [|x l1 IH]; intros b.
  - change (io_fold f l2 b = io_bind (io_ret b) (io_fold f l2)).
    now rewrite io_bind_ret.
  - change (io_fold f (x :: (l1 ++ l2)) b =
            io_bind (io_fold f (x :: l1) b) (io_fold f l2)).
    rewrite !io_fold_cons.
    destruct (f b x) as [t [e|b']]; [reflexivity|].
    rewrite !io_bind_value, IH.
    destruct (io_fold f l1 b') as [t1 [e|b1]]; simpl; [reflexivity|].
    destruct (io_fold f l2 b1) as [t2 r2]. simpl. now rewrite app_assoc.
Qed.

(** *** The stages of [send] *)

Lemma validate_message_cases (self : Email) :
  validate_message self = ([], inl MissingBody) \/
  validate_message self = ([], inl MissingRecipient) \/
  validate_message self = io_ret tt.
Proof.
  unfold validate_message.
  destruct (bool_decide (_textBody self = None) &&
            bool_decide (_htmlBody self = None)); [now left | right].
  destruct (Nat.eqb (length (_to self)) 0); [now left | now right].
Qed.

Lemma wrap_for_attachments_cases (self : Email) (body : mime) :
  (_attach self = [] /\ wrap_for_attachments self body = inr body) \/
  (_attach self <> [] /\
   wrap_for_attachments self body =
     inr (MIME "multipart" "mixed" [] None (Parts [body]))).
Proof.
  unfold wrap_for_attachments.
  destruct (_attach self) as [|a l]; [left | right]; split;
    try reflexivity; discriminate.
Qed.

Lemma attach_all_multipart (parts : list mime) : forall mt st h p ps,
  attach_all parts (MIME mt st h p (Parts ps)) =
    inr (MIME mt st h p (Parts (ps ++ parts))).
Proof.
  induction parts as [|part parts IH]; intros mt st h p ps; simpl.
  - now rewrite app_nil_r.
  - rewrite IH. now rewrite <- app_assoc.
Qed.

Lemma complete_header_same_content (self : Email) (msg msg' : mime) :
  complete_header self msg = inr msg' -> same_content msg' msg.
Proof.
  unfold complete_header, same_content.
  destruct (get_from self) as [e|from_addr]; [discriminate|].
  destruct msg as [mt st h p b].
  destruct (_replyTo self); intros H; injection H as <-; simpl; auto.
Qed.


(** Properties of every event of a log go through [io_bind]. *)
Lemma io_bind_Forall {A B} (P : event -> Prop) (m : IO A) (f : A -> IO B) :
  Forall P (fst m) ->
  (forall a, snd m = inr a -> Forall P (fst (f a))) ->
  Forall P (fst (io_bind m f)).
Proof.
  intros Hm Hf. destruct m as [t [e|a]]; simpl in *; [exact Hm|].
  specialize (Hf a eq_refl). destruct (f a) as [t' r]. simpl in *.
  apply Forall_app. auto.
Qed.

Lemma call_Forall (P : event -> Prop) e outcome :
  P e -> Forall P (fst (call e outcome)).
Proof. intros H. destruct outcome; simpl; repeat constructor; exact H. Qed.

Lemma log_Forall (P : event -> Prop) e : P e -> Forall P (fst (log e)).
Proof. intros H. simpl. repeat constructor. exact H. Qed.

(** The only message that the session is given is the one [send] has
    built, with the recipients of the three lists and the sender. *)
Lemma send_message_sendmail w (self : Email) msg all f rc m :
  In (Sendmail f rc m) (fst (send_message w self msg all)) ->
  m = msg /\ rc = all /\ _from self = Some f.
Proof.
  set (P := fun e => match e with
                     | Sendmail f rc m =>
                         m = msg /\ rc = all /\ _from self = Some f
                     | _ => True
                     end).
  assert (H : Forall P (fst (send_message w self msg all))).
  { unfold send_message.
    destruct (smtp_connect (server w)); [repeat constructor|].
    unfold finally_quietly.
    match goal with
    | |- Forall P (fst (let (t, r) := ?body in _)) =>
        assert (Hb : Forall P (fst body)); [|destruct body as [t r]]
    end.
    - repeat first
        [ apply io_bind_Forall; [|intros ? ?]
        | apply call_Forall; exact I
        | apply log_Forall; exact I
        | apply List.Forall_nil
        | match goal with
          | |- Forall _ (fst (if ?c then _ else _)) => destruct c
          end ].
      apply log_Forall. simpl.
      match goal with
      | E : snd (io_lift (get_from self)) = inr _ |- _ =>
          unfold get_from in E; simpl in E;
          destruct (_from self); [injection E as ->; auto | discriminate]
      end.
    - simpl in *. apply Forall_app. split; [exact Hb|].
      apply call_Forall. exact I. }
  intros Hin. rewrite Forall_forall in H.
  apply list_elem_of_In in Hin. exact (H _ Hin).
Qed.

(** [send] either raises before it has touched the network, or has a
    complete message when it turns to the server. *)
Lemma send_stages w (self : Email) :
  (exists t e, send w self = (t, inl e) /\ no_smtp t) \/
  (exists body wrapped t0 msg0 msg,
     validate_message self = io_ret tt /\
     create_message_part self = inr body /\
     wrap_for_attachments self body = inr wrapped /\
     add_attachments w self wrapped = (t0, inr msg0) /\
     no_smtp t0 /\
     complete_header self msg0 = inr msg /\
     send w self =
       (t0 ++ fst (send_message w self msg (_to self ++ _cc self ++ _bcc self)),
        snd (send_message w self msg (_to self ++ _cc self ++ _bcc self)))).
Proof.
  unfold send.
  destruct (validate_message_cases self) as [Hv|[Hv|Hv]];
    [left; rewrite Hv, io_bind_raise; eexists _, _; split;
       [reflexivity | constructor] ..|].
  rewrite Hv, io_bind_ret.
  destruct (create_message_part self) as [e|body] eqn:Hb.
  { left. unfold io_lift. rewrite io_bind_raise.
    eexists _, _. split; [reflexivity | constructor]. }
  rewrite io_bind_lift.
  destruct (wrap_for_attachments self body) as [e|wrapped] eqn:Hw.
  { left. unfold io_lift. rewrite io_bind_raise.
    eexists _, _. split; [reflexivity | constructor]. }
  rewrite io_bind_lift.
  pose proof (io_fold_no_smtp w (_attach self) wrapped) as Ht.
  fold (add_attachments w self wrapped) in Ht.
  destruct (add_attachments w self wrapped) as [t0 [e|msg0]] eqn:Ha;
    simpl in Ht.
  { left. rewrite io_bind_raise. eauto. }
  rewrite io_bind_value.
  destruct (complete_header self msg0) as [e|msg] eqn:Hh.
  { left. unfold io_lift. rewrite io_bind_raise. simpl.
    rewrite app_nil_r. eauto. }
  right. rewrite io_bind_lift.
  exists body, wrapped, t0, msg0, msg. auto 10.
Qed.

(** What a submitted message is made of. *)
Lemma submits_shape w (self : Email) (msg : mime) :
  submits w self msg ->
  exists body wrapped parts msg0,
    create_message_part self = inr body /\
    wrap_for_attachments self body = inr wrapped /\
    Forall2 (part_for w) (_attach self) parts /\
    attach_all parts wrapped = inr msg0 /\
    complete_header self msg0 = inr msg.
Proof.
  intros (f & rc & Hin).
  destruct (send_stages w self) as [(t & e & E & Ht)|
    (body & wrapped & t0 & msg0 & msg1 & Hv & Hb & Hw & Ha & Ht & Hh & E)];
    rewrite E in Hin; simpl in Hin.
  - exfalso. exact (no_smtp_not_sent _ _ _ _ Ht Hin).
  - apply in_app_or in Hin as [Hin|Hin].
    + exfalso. exact (no_smtp_not_sent _ _ _ _ Ht Hin).
    + apply send_message_sendmail in Hin as (-> & _ & _).
      unfold add_attachments in Ha.
      apply io_fold_result in Ha as (parts & Hparts & Hall).
      exists body, wrapped, parts, msg0. auto.
Qed.

Lemma create_message_part_ok (self : Email) :
  exists body, create_message_part self = inr body.
Proof.
  unfold create_message_part.
  destruct (_textBody self), (_htmlBody self); simpl; eauto.
Qed.

Lemma send_raises_in_attachments w (self : Email) body wrapped t e :
  validate_message self = io_ret tt ->
  create_message_part self = inr body ->
  wrap_for_attachments self body = inr wrapped ->
  add_attachments w self wrapped = (t, inl e) ->
  send w self = (t, inl e).
Proof.
  intros Hv Hb Hw Ha. unfold send.
  rewrite Hv, io_bind_ret, Hb, io_bind_lift, Hw, io_bind_lift, Ha.
  reflexivity.
Qed.


(** The parts of a submitted message. *)
Lemma submitted_parts w (self : Email) (msg : mime) :
  submits w self msg ->
  exists body parts,
    create_message_part self = inr body /\
    Forall2 (part_for w) (_attach self) parts /\
    ((_attach self = [] /\ parts = [] /\ same_content msg body) \/
     (_attach self <> [] /\ maintype_of msg = "multipart" /\
      subtype_of msg = "mixed" /\ body_of msg = Parts (body :: parts))).
Proof.
  intros H.
  apply submits_shape in H
    as (body & wrapped & parts & msg0 & Hb & Hw & Hparts & Hall & Hh).
  apply complete_header_same_content in Hh as (Hmt & Hst & Hbody).
  exists body, parts. split; [exact Hb|]. split; [exact Hparts|].
  destruct (wrap_for_attachments_cases self body) as [[Hnil E]|[Hne E]];
    rewrite E in Hw; injection Hw as <-.
  - left. rewrite Hnil in Hparts. inversion Hparts; subst.
    simpl in Hall. injection Hall as <-.
    repeat split; auto.
  - right. rewrite attach_all_multipart in Hall. injection Hall as <-.
    simpl in *. auto.
Qed.

(** C3. The message part that [send] creates for the bodies: with the
    text body alone, one text/plain part; with the HTML body alone, one
    text/html part; with both, a multipart/alternative container whose
    parts are the plain one and then the HTML one. That part is the
    body of every message [send] submits: the message itself when
    there is no attachment, the first part of the outer container when
    there is one. *)
Theorem body_assembly (self : Email) :
  (forall textBody,
     _textBody self = Some textBody -> _htmlBody self = None ->
     create_message_part self = inr (MIMEText (Some textBody) "plain")) /\
  (forall htmlBody,
     _textBody self = None -> _htmlBody self = Some htmlBody ->
     create_message_part self = inr (MIMEText (Some htmlBody) "html")) /\
  (forall textBody htmlBody,
     _textBody self = Some textBody -> _htmlBody self = Some htmlBody ->
     create_message_part self =
       inr (MIME "multipart" "alternative" [] None
              (Parts [MIMEText (Some textBody) "plain";
                      MIMEText (Some htmlBody) "html"]))) /\
  (forall w msg,
     submits w self msg ->
     exists body part,
       create_message_part self = inr body /\
       body_part_of self msg = Some part /\
       same_content part body).
Proof.
  split; [|split; [|split]].
  - intros textBody Ht Hh. unfold create_message_part. now rewrite Ht, Hh.
  - intros htmlBody Ht Hh. unfold create_message_part. now rewrite Ht, Hh.
  - intros textBody htmlBody Ht Hh. unfold create_message_part.
    now rewrite Ht, Hh.
  - intros w msg H.
    apply submitted_parts in H
      as (body & parts & Hb & _ & [(Hnil & _ & Hsame)|(Hne & _ & _ & Hbody)]).
    + exists body, msg. unfold body_part_of. rewrite Hnil. auto.
    + exists body, body. unfold body_part_of.
      destruct (_attach self) as [|a l]; [congruence|].
      destruct msg as [mt st h p b]. simpl in Hbody. subst b.
      repeat split; auto.
Qed.

Lemma body_assembly_witness :
  create_message_part example_email = inr (MIMEText (Some "hello") "plain") /\
  create_message_part (after (setHtmlBody "<p>hello</p>") fresh) =
    inr (MIMEText (Some "<p>hello</p>") "html") /\
  create_message_part (after (setHtmlBody "<p>hello</p>") example_email) =
    inr (MIME "multipart" "alternative" [] None
           (Parts [MIMEText (Some "hello") "plain";
                   MIMEText (Some "<p>hello</p>") "html"])) /\
  (exists msg part,
     submits example_world
       (after (addAttachment (Some "/srv/report.bin") None)
          (after (setHtmlBody "<p>hello</p>") example_email)) msg /\
     body_part_of
       (after (addAttachment (Some "/srv/report.bin") None)
          (after (setHtmlBody "<p>hello</p>") example_email)) msg = Some part /\
     same_content part
       (MIME "multipart" "alternative" [] None
          (Parts [MIMEText (Some "hello") "plain";
                   MIMEText (Some "<p>hello</p>") "html"]))).
Proof.
  split; [|split; [|split]].
  - apply (body_assembly example_email); reflexivity.
  - apply (body_assembly (after (setHtmlBody "<p>hello</p>") fresh));
      reflexivity.
  - apply (body_assembly (after (setHtmlBody "<p>hello</p>") example_email));
      reflexivity.
  - set (self := after (addAttachment (Some "/srv/report.bin") None)
                   (after (setHtmlBody "<p>hello</p>") example_email)).
    destruct (body_assembly self) as (_ & _ & Hboth & Hsub).
    assert (S : exists msg, submits example_world self msg).
    { eexists. exists "x@y.org", ["a@b.com"]. vm_compute.
      repeat (first [left; reflexivity | right]). }
    destruct S as (msg & Hmsg).
    destruct (Hsub example_world msg Hmsg) as (body & part & Hb & Hp & Hs).
    exists msg, part. split; [exact Hmsg|]. split; [exact Hp|].
    rewrite (Hboth "hello" "<p>hello</p>" eq_refl eq_refl) in Hb.
    injection Hb as <-. exact Hs.
Defined.

(** *** Attachments that are not there *)

Lemma wrap_nonempty (self : Email) body pre a post :
  _attach self = pre ++ a :: post ->
  wrap_for_attachments self body =
    inr (MIME "multipart" "mixed" [] None (Parts [body])).
Proof.
  intros E. destruct (wrap_for_attachments_cases self body) as [[Hnil _]|[_ H]];
    [|exact H].
  rewrite Hnil in E. destruct pre; discriminate.
Qed.

(** The loop raises what the first attachment that fails raises. *)
Lemma add_attachments_first_failure w (self : Email) wrapped pre fname
    attachname post t e :
  _attach self = pre ++ (fname, attachname) :: post ->
  Forall (fun a => attachable w (fst a) = true) pre ->
  is_multipart wrapped = true ->
  attachment_part w fname attachname = (t, inl e) ->
  exists t0, add_attachments w self wrapped = (t0, inl e) /\ no_smtp t0.
Proof.
  intros E Hpre Hm Hp.
  pose proof (io_fold_no_smtp w (_attach self) wrapped) as Hn.
  fold (add_attachments w self wrapped) in Hn.
  assert (Hr : snd (add_attachments w self wrapped) = inl e).
  { unfold add_attachments. rewrite E, io_fold_app.
    destruct (io_fold_attachable w pre wrapped Hpre Hm) as (t1 & msg1 & H1 & _).
    rewrite H1, io_bind_value, io_fold_cons.
    rewrite (attach_one_raise _ _ _ _ _ _ Hp). reflexivity. }
  destruct (add_attachments w self wrapped) as [t0 r]. simpl in *. subst r.
  eauto.
Qed.




(** C6. The part for an attachment that is a readable regular file and
    whose type is not guessed, or is guessed together with a content
    encoding: application/octet-stream, the bytes of the file as
    payload, encoded in Base64. Every part built for an attachment
    carries the header Content-Disposition: attachment, with the display
    name as file name when there is one and the base name of the path
    otherwise. In a submitted message, the parts after the body are
    these parts, one for each attachment, in the order they were
    added. *)
Theorem attachments_are_embedded (w : World) :
  (forall fname attachname data,
     fs w !! fname = Some (RegularFile true data) ->
     fst (guess_type w fname) = None \/ snd (guess_type w fname) <> None ->
     attachment_part w fname attachname =
       ([FsExists fname; FsIsFile fname; FsOpen fname "rb"],
        inr (MIME "application" "octet-stream"
               [("Content-Disposition", "attachment",
                 [("filename", match attachname with
                               | None => basename fname
                               | Some name => name
                               end)])]
               None (Payload (Some Base64) (Some data))))) /\
  (forall fname attachname t part,
     attachment_part w fname attachname = (t, inr part) ->
     has_header ("Content-Disposition", "attachment",
                 [("filename", match attachname with
                               | None => basename fname
                               | Some name => name
                               end)]) part) /\
  (forall self msg,
     submits w self msg ->
     Forall2 (part_for w) (_attach self) (attachment_parts_of self msg)).
Proof.
  split; [|split].
  - intros fname attachname data Hfs Hg.
    now apply attachment_part_octet_stream.
  - intros fname attachname t part H.
    exact (attachment_part_disposition w fname attachname t part H).
  - intros self msg H.
    apply submitted_parts in H
      as (body & parts & _ & Hparts &
            [(Hnil & -> & _)|(Hne & _ & _ & Hbody)]).
    + unfold attachment_parts_of. rewrite Hnil. rewrite Hnil in Hparts.
      exact Hparts.
    + unfold attachment_parts_of.
      destruct (_attach self) as [|a l] eqn:E; [congruence|].
      destruct msg as [mt st h p b]. simpl in Hbody. subst b. exact Hparts.
Qed.

Lemma attachments_are_embedded_witness :
  attachment_part example_world "/srv/report.bin" None =
    ([FsExists "/srv/report.bin"; FsIsFile "/srv/report.bin";
      FsOpen "/srv/report.bin" "rb"],
     inr (MIME "application" "octet-stream"
            [("Content-Disposition", "attachment", [("filename", "report.bin")])]
            None (Payload (Some Base64) (Some "0101")))) /\
  has_header ("Content-Disposition", "attachment", [("filename", "minutes")])
    (MIME "text" "plain"
       [("Content-Disposition", "attachment", [("filename", "minutes")])]
       None (Payload (Some SevenBit) (Some "notes"))) /\
  (exists msg,
     submits example_world
       (after (addAttachment (Some "/srv/notes.txt") (Some "minutes"))
          (after (addAttachment (Some "/srv/report.bin") None) example_email))
       msg /\
     Forall2 (part_for example_world)
       [("/srv/report.bin", None); ("/srv/notes.txt", Some "minutes")]
       (attachment_parts_of
          (after (addAttachment (Some "/srv/notes.txt") (Some "minutes"))
             (after (addAttachment (Some "/srv/report.bin") None)
                example_email))
          msg)).
Proof.
  destruct (attachments_are_embedded example_world) as (Hoctet & Hdisp & Hsub).
  split; [|split].
  - apply (Hoctet "/srv/report.bin" None "0101").
    + reflexivity.
    + left. reflexivity.
  - apply (Hdisp "/srv/notes.txt" (Some "minutes")
             [FsExists "/srv/notes.txt"; FsIsFile "/srv/notes.txt";
              FsOpen "/srv/notes.txt" "r"]).
    reflexivity.
  - set (self := after (addAttachment (Some "/srv/notes.txt") (Some "minutes"))
                   (after (addAttachment (Some "/srv/report.bin") None)
                      example_email)).
    assert (S : exists msg, submits example_world self msg).
    { eexists. exists "x@y.org", ["a@b.com"]. vm_compute.
      repeat (first [left; reflexivity | right]). }
    destruct S as (msg & Hmsg).
    exists msg. split; [exact Hmsg|].
    exact (Hsub self msg Hmsg).
Defined.








(** * Further properties *)

(** ** Valid addresses *)

Lemma count_zero_no_at (s : string) : count_char "@" s = 0 -> no_at s = true.
Proof.
  unfold no_at. induction s as [|c s IH]; simpl; [reflexivity|].
  destruct (Ascii.eqb c "@"); simpl; [discriminate|]. exact IH.
Qed.

Lemma chop_dot (s : string) :
  mem "." (chop s) = true <->
  exists b c : string, s = b +:+ "." +:+ c /\ nonempty c = true.
Proof.
  induction s as [|x s IH].
  - simpl. split; [discriminate|].
    intros (b & c & E & _). destruct b; discriminate.
  - destruct s as [|y s].
    + simpl. split; [discriminate|].
      intros (b & c & E & Hc). destruct b as [|z b]; simpl in E.
      * injection E as _ <-. discriminate.
      * injection E as _ E. destruct b; discriminate.
    + change (chop (String x (String y s))) with (String x (chop (String y s))).
      cbn [mem]. split.
      * intros H. apply orb_prop in H as [H|H].
        -- apply Ascii.eqb_eq in H. subst x.
           exists "", (String y s). split; reflexivity.
        -- apply IH in H as (b & c & E & Hc).
           exists (String x b), c. simpl. rewrite E. auto.
      * intros (b & c & E & Hc). destruct b as [|z b]; simpl in E.
        -- injection E as E1 _. subst x. reflexivity.
        -- injection E as E1 E. subst z. apply orb_true_intro. right.
           apply IH. exists b, c. split; [exact E | exact Hc].
Qed.

Lemma inner_dot (d : string) :
  mem "." (inner d) = true <->
  exists b c : string,
    d = b +:+ "." +:+ c /\ nonempty b = true /\ nonempty c = true.
Proof.
  destruct d as [|x d]; simpl.
  - split; [discriminate|]. intros (b & c & E & _). destruct b; discriminate.
  - rewrite chop_dot. split.
    + intros (b & c & E & Hc). exists (String x b), c. simpl.
      rewrite E. auto.
    + intros (b & c & E & Hb & Hc). destruct b as [|y b]; [discriminate|].
      simpl in E. injection E as E1 E. exists b, c. split; [exact E | exact Hc].
Qed.

(** X1. [validateEmailAddress] accepts a string exactly when it holds
    one @, with something before it, and after it a dot that is neither
    the first nor the last character of what follows the @. *)
Theorem valid_address_shape (s : string) :
  validateEmailAddress s = true <->
  count_char "@" s = 1 /\
  exists local domain : string,
    s = local +:+ "@" +:+ domain /\
    nonempty local = true /\
    mem "." (inner domain) = true.
Proof.
  rewrite validateEmailAddress_iff. split.
  - intros F. split; [now apply permissive_form_one_at|].
    destruct F as (a & b & c & -> & Na & Nb & Nc & _).
    exists a, (b +:+ "." +:+ c). repeat split; auto.
    apply inner_dot. eauto.
  - intros (Hcount & local & domain & -> & Hl & Hdot).
    rewrite !count_char_app in Hcount. simpl in Hcount.
    apply inner_dot in Hdot as (b & c & -> & Nb & Nc).
    rewrite !count_char_app in Hcount. simpl in Hcount.
    exists local, b, c. repeat split; auto; apply count_zero_no_at; lia.
Qed.

(** ** What the methods keep *)

(** A property of the object that each round of a loop keeps, whether
    the round returns or raises, is kept by the loop. *)
Lemma for_each_keeps {A} (P : Email -> Prop) (l : list A) (body : A -> M unit) :
  (forall x self, P self -> P (after (body x) self)) ->
  forall self, P self -> P (after (for_each l body) self).
Proof.
  intros H. induction l as [|x l IH]; intros self HP; [exact HP|].
  specialize (H x self HP). unfold after in *. simpl. unfold bind.
  destruct (body x self) as [[e|u] self']; simpl in *; [exact H|].
  now apply IH.
Qed.

Lemma addRecipient_keeps_validated address type (self : Email) :
  addresses_validated self ->
  addresses_validated (after (addRecipient address type) self).
Proof.
  intros (Hto & Hcc & Hbcc & Hfrom & Hreply).
  unfold after, addRecipient.
  destruct (validateEmailAddress address) eqn:Hv; simpl;
    [|repeat split; assumption].
  assert (Hnew : Forall valid [address]) by (repeat constructor; exact Hv).
  destruct (String.eqb type "CC"); [|destruct (String.eqb type "BCC")];
    simpl; repeat split; simpl; try assumption; apply Forall_app; auto.
Qed.

(** One call keeps the addresses of the object validated, whether it
    returns or raises. *)
Lemma perform_keeps_validated (c : method_call) (self : Email) :
  addresses_validated self -> addresses_validated (after (perform c) self).
Proof.
  intros (Hto & Hcc & Hbcc & Hfrom & Hreply).
  destruct c as [subject|address| |address type|addressList type|body|body
                |address| |filepath attachname|filepathList];
    try (repeat split; assumption).
  - unfold after, perform, setFrom.
    destruct (validateEmailAddress address) eqn:Hv; simpl;
      repeat split; simpl; assumption.
  - repeat split; simpl; try assumption; constructor.
  - apply addRecipient_keeps_validated. repeat split; assumption.
  - unfold after, perform. rewrite addRecipients_loop.
    apply (for_each_keeps addresses_validated).
    + intros x s Hs. now apply addRecipient_keeps_validated.
    + repeat split; assumption.
  - unfold after, perform, setReplyTo.
    destruct (validateEmailAddress address) eqn:Hv; simpl;
      repeat split; simpl; assumption.
  - destruct filepath; repeat split; assumption.
  - unfold after, perform, addAttachments.
    destruct (re_split _ _) as [e|fragments];
      [repeat split; assumption|].
    apply (for_each_keeps addresses_validated
             fragments (fun thisFile => addAttachment (Some thisFile) None)).
    + intros x s Hs. exact Hs.
    + repeat split; assumption.
Qed.

Lemma new_validated smtpServer smtpPort hostname username password debugLevel :
  addresses_validated
    (__init__ smtpServer smtpPort hostname username password debugLevel).
Proof. repeat split; simpl; constructor. Qed.

Lemma validated_after_calls (self : Email) :
  reachable self -> addresses_validated self.
Proof.
  induction 1 as [|self c _ IH];
    [apply new_validated | exact (perform_keeps_validated c self IH)].
Qed.

(** X2. Whatever calls have been made on an object since it was
    constructed, and whether they returned or raised, every address in
    its three recipient lists has passed [validateEmailAddress], and so
    have its sender and its reply-to address when they are set. *)
Theorem reachable_addresses_validated (self : Email) :
  reachable self -> addresses_validated self.
Proof.
  intros Hr. induction Hr as [smtpServer smtpPort hostname username password
                              debugLevel|self c Hr IH].
  - apply new_validated.
  - apply perform_keeps_validated. exact IH.
Qed.

Lemma reachable_addresses_validated_witness :
  addresses_validated
    (after (perform (CallAddRecipients "a@b.com, nobody, c@d.com" (Some "CC")))
       (after (perform (CallSetFrom "x@y.org")) fresh)).
Proof.
  apply reachable_addresses_validated.
  apply reachable_call. apply reachable_call. apply reachable_new.
Defined.

Lemma perform_keeps_connection (c : method_call) (self : Email) :
  connection (after (perform c) self) = connection self.
Proof.
  destruct c as [subject|address| |address type|addressList type|body|body
                |address| |filepath attachname|filepathList];
    try reflexivity.
  - unfold after, perform, setFrom.
    destruct (validateEmailAddress address); reflexivity.
  - unfold after, perform, addRecipient.
    destruct (validateEmailAddress address); [|reflexivity].
    destruct (String.eqb type "CC"); [reflexivity|].
    destruct (String.eqb type "BCC"); reflexivity.
  - unfold after, perform. rewrite addRecipients_loop.
    apply (for_each_keeps (fun s => connection s = connection self));
      [|reflexivity].
    intros x s Hs. rewrite <- Hs. unfold after, addRecipient.
    destruct (validateEmailAddress x); [|reflexivity].
    destruct (String.eqb (default "TO" type) "CC"); [reflexivity|].
    destruct (String.eqb (default "TO" type) "BCC"); reflexivity.
  - unfold after, perform, setReplyTo.
    destruct (validateEmailAddress address); reflexivity.
  - destruct filepath; reflexivity.
  - unfold after, perform, addAttachments.
    destruct (re_split _ _) as [e|fragments]; [reflexivity|].
    apply (for_each_keeps (fun s => connection s = connection self)
             fragments (fun thisFile => addAttachment (Some thisFile) None));
      [|reflexivity].
    intros x s Hs. exact Hs.
Qed.

(** X3. No method changes what the constructor was given: after any
    sequence of calls, returning or raising, the server, the port, the
    local host name, the user name, the password and the debug level of
    the object are the arguments of its construction. *)
Theorem connection_is_fixed (cs : list method_call)
    (smtpServer : string) (smtpPort : nat)
    (hostname username password : string) (debugLevel : nat) :
  connection
    (after_calls cs
       (__init__ smtpServer smtpPort hostname username password debugLevel)) =
  (smtpServer, smtpPort, hostname, username, password, debugLevel).
Proof.
  assert (G : forall self, connection (after_calls cs self) = connection self).
  { induction cs as [|c cs IH]; intros self; [reflexivity|].
    simpl. rewrite IH. apply perform_keeps_connection. }
  rewrite G. reflexivity.
Qed.

(** ** The session with the server *)

(** Every way a session can go: the answers of the server, whether
    there is a user name, whether there is a sender. *)
Ltac session_cases w self msg all :=
  unfold send_message, finally_quietly, call, log, io_bind, io_ret, io_lift,
    get_from in *;
  let srv := fresh "srv" in
  let E := fresh "E" in
  let rc := fresh "connect" in
  let re := fresh "ehlo" in
  let rh := fresh "has_starttls" in
  let rst := fresh "starttls" in
  let rq := fresh "quit" in
  let rssl := fresh "ssl_connect" in
  let rlg := fresh "login" in
  let rsm := fresh "sendmail" in
  let sender := fresh "sender" in
  remember (server w) as srv eqn:E; clear E;
  destruct srv as [rc re rh rst rq rssl rlg rsm];
  cbn [smtp_connect smtp_ehlo smtp_has_starttls smtp_starttls smtp_quit
       smtp_ssl_connect smtp_login smtp_sendmail] in *;
  destruct rc; destruct re; destruct (nonempty (_username self));
  destruct rh; destruct rst; destruct rq; destruct rssl;
  destruct (rlg (_username self) (_password self));
  destruct (_from self) as [sender|];
  try destruct (rsm sender all msg) eqn:?;
  cbn in *.

Lemma send_message_one_sendmail w (self : Email) msg all :
  length (List.filter is_sendmail (fst (send_message w self msg all))) <= 1.
Proof. session_cases w self msg all; lia. Qed.

Lemma send_message_starts w (self : Email) msg all :
  exists t,
    fst (send_message w self msg all) =
    Connect (_smtpServer self) (_smtpPort self) (_hostname self) 5 :: t.
Proof. session_cases w self msg all; eauto. Qed.

Lemma send_message_closes w (self : Email) msg all :
  smtp_connect (server w) = None ->
  last (fst (send_message w self msg all)) = Some Quit.
Proof.
  intros H. session_cases w self msg all; try discriminate; reflexivity.
Qed.

Lemma send_message_refused w (self : Email) msg all err :
  smtp_connect (server w) = Some err ->
  send_message w self msg all =
    ([Connect (_smtpServer self) (_smtpPort self) (_hostname self) 5], inl err).
Proof. intros H. unfold send_message. now rewrite H. Qed.

Lemma send_message_login_secured w (self : Email) msg all :
  login_secured false (fst (send_message w self msg all)) = true.
Proof. session_cases w self msg all; reflexivity. Qed.

(** Once the message is handed over, [send] ends as [sendmail] does. *)
Lemma send_message_outcome w (self : Email) msg all f rc m :
  In (Sendmail f rc m) (fst (send_message w self msg all)) ->
  snd (send_message w self msg all) = smtp_sendmail (server w) f rc m.
Proof.
  intros H.
  destruct (send_message_sendmail _ _ _ _ _ _ _ H) as (-> & -> & Hf).
  revert H. session_cases w self msg all; intros H;
    repeat (destruct H as [H|H]; try discriminate H);
    try contradiction;
    injection Hf as ->; congruence.
Qed.

Lemma send_message_result w (self : Email) msg all res :
  snd (send_message w self msg all) = inr res ->
  exists f, In (Sendmail f all msg) (fst (send_message w self msg all)) /\
            smtp_sendmail (server w) f all msg = inr res.
Proof.
  session_cases w self msg all; intros H; try discriminate H;
    injection H as <-; eexists; (split; [|eassumption]);
    repeat (first [left; reflexivity | right]).
Qed.

Lemma send_message_opens w (self : Email) msg all f :
  session_opens w self ->
  _from self = Some f ->
  In (Sendmail f all msg) (fst (send_message w self msg all)) /\
  snd (send_message w self msg all) = smtp_sendmail (server w) f all msg.
Proof.
  intros (Hc & He & Hu) Hf.
  assert (Hin : In (Sendmail f all msg) (fst (send_message w self msg all))).
  { revert Hc He Hu Hf. session_cases w self msg all; intros Hc He Hu Hf;
      try congruence;
      try (destruct (Hu eq_refl) as [Hs Hl];
           first [congruence | destruct Hs; congruence]);
      injection Hf as ->; repeat (first [left; reflexivity | right]). }
  split; [exact Hin | now apply send_message_outcome].
Qed.

(** *** The log of [send] *)

(** The log of [send]: accesses to files, then the session if [send]
    gets that far. *)
Lemma send_log w (self : Email) :
  (exists t e, send w self = (t, inl e) /\ no_smtp t) \/
  (exists t0 msg0 msg,
     validate_message self = io_ret tt /\
     no_smtp t0 /\
     headers_of msg0 = [] /\
     complete_header self msg0 = inr msg /\
     send w self =
       (t0 ++ fst (send_message w self msg (allRecipients self)),
        snd (send_message w self msg (allRecipients self)))).
Proof.
  destruct (send_stages w self) as [H|
    (body & wrapped & t0 & msg0 & msg & Hv & Hb & Hw & Ha & Ht & Hh & E)];
    [left; exact H | right].
  exists t0, msg0, msg. repeat split; auto.
  unfold add_attachments in Ha.
  apply io_fold_result in Ha as (parts & _ & Hall).
  assert (Hbody : headers_of body = []).
  { unfold create_message_part in Hb.
    destruct (_textBody self), (_htmlBody self); simpl in Hb;
      injection Hb as <-; reflexivity. }
  destruct (wrap_for_attachments_cases self body) as [[_ E']|[_ E']];
    rewrite E' in Hw; injection Hw as <-.
  - clear -Hall Hbody. revert body msg0 Hall Hbody.
    induction parts as [|part parts IH]; intros body msg0 Hall Hbody.
    + simpl in Hall. now injection Hall as <-.
    + simpl in Hall. destruct body as [mt st h p [cte data|ps]];
        simpl in Hall; [discriminate|].
      apply IH in Hall; [exact Hall | exact Hbody].
  - rewrite attach_all_multipart in Hall. now injection Hall as <-.
Qed.

Lemma no_smtp_filter (p : event -> bool) (t : list event) :
  (forall e, p e = true -> is_smtp e = true) ->
  no_smtp t -> List.filter p t = [].
Proof.
  intros Hp Ht. induction Ht as [|e t He Ht IH]; [reflexivity|].
  simpl. destruct (p e) eqn:Hpe; [|exact IH].
  apply Hp in Hpe. congruence.
Qed.

Lemma no_smtp_not_in (t : list event) e : no_smtp t -> is_smtp e = true -> ~ In e t.
Proof.
  intros Ht He Hin. unfold no_smtp in Ht. rewrite Forall_forall in Ht.
  apply list_elem_of_In in Hin. specialize (Ht _ Hin). congruence.
Qed.

Lemma login_secured_files b (t0 t : list event) :
  no_smtp t0 -> login_secured b (t0 ++ t) = login_secured b t.
Proof.
  intros H. induction H as [|e t0 He Ht IH]; [reflexivity|].
  simpl. destruct e; try discriminate; exact IH.
Qed.

(** What [send] does once a [sendmail] is in its log. *)
Lemma send_sendmail w (self : Email) f rc msg :
  In (Sendmail f rc msg) (fst (send w self)) ->
  validate_message self = io_ret tt /\
  rc = allRecipients self /\
  _from self = Some f /\
  snd (send w self) = smtp_sendmail (server w) f rc msg.
Proof.
  intros Hin.
  destruct (send_log w self) as [(t & e & E & Ht)|
    (t0 & msg0 & msg1 & Hv & Ht & _ & _ & E)]; rewrite E in *; simpl in *.
  - exfalso. exact (no_smtp_not_sent _ _ _ _ Ht Hin).
  - apply in_app_or in Hin as [Hin|Hin];
      [exfalso; exact (no_smtp_not_sent _ _ _ _ Ht Hin)|].
    pose proof (send_message_outcome _ _ _ _ _ _ _ Hin) as Hout.
    apply send_message_sendmail in Hin as (-> & -> & Hf). auto.
Qed.

Lemma validate_message_passed (self : Email) :
  validate_message self = io_ret tt ->
  (_textBody self <> None \/ _htmlBody self <> None) /\ _to self <> [].
Proof.
  unfold validate_message.
  destruct (_textBody self), (_htmlBody self), (_to self); simpl;
    try discriminate; intros _; split; auto; discriminate.
Qed.

(** X4. The envelope of a message that [send] submits: its sender is
    [_from], its recipients are the addresses of [_to], then those of
    [_cc], then those of [_bcc], with their repetitions; there is at
    least one. For an object built by calls on a new one, the sender and
    every recipient have passed [validateEmailAddress]. *)
Theorem submitted_envelope w (self : Email) f rc msg :
  In (Sendmail f rc msg) (fst (send w self)) ->
  _from self = Some f /\
  rc = _to self ++ _cc self ++ _bcc self /\
  rc <> [] /\
  (reachable self -> valid f /\ Forall valid rc).
Proof.
  intros Hin. apply send_sendmail in Hin as (Hv & -> & Hf & _).
  apply validate_message_passed in Hv as [_ Hto].
  split; [exact Hf|]. split; [reflexivity|]. split.
  - unfold allRecipients. destruct (_to self); [congruence | discriminate].
  - intros Hr.
    destruct (validated_after_calls self Hr)
      as (Hvto & Hvcc & Hvbcc & Hvfrom & _).
    rewrite Hf in Hvfrom. split; [exact Hvfrom|].
    unfold allRecipients. rewrite !Forall_app. auto.
Qed.

Lemma submitted_envelope_witness :
  exists msg,
    In (Sendmail "x@y.org" ["a@b.com"] msg) (fst (send example_world example_email)) /\
    valid "x@y.org" /\ Forall valid ["a@b.com"].
Proof.
  assert (S : exists msg,
             In (Sendmail "x@y.org" ["a@b.com"] msg)
                (fst (send example_world example_email))).
  { eexists. vm_compute. repeat (first [left; reflexivity | right]). }
  destruct S as (msg & Hin). exists msg. split; [exact Hin|].
  destruct (submitted_envelope example_world example_email _ _ _ Hin)
    as (_ & _ & _ & H).
  apply H. unfold example_email.
  apply (reachable_call _ (CallSetTextBody "hello")).
  apply (reachable_call _ (CallAddRecipient "a@b.com" "TO")).
  apply (reachable_call _ (CallSetFrom "x@y.org")).
  apply reachable_new.
Defined.

(** X5. [send] hands over at most one message. When it has handed one
    over it ends as that [sendmail] does: it returns what [sendmail]
    returned, or raises what [sendmail] raised. It returns a result in
    no other way. *)
Theorem send_ends_as_sendmail w (self : Email) :
  length (List.filter is_sendmail (fst (send w self))) <= 1 /\
  (forall f rc msg,
     In (Sendmail f rc msg) (fst (send w self)) ->
     snd (send w self) = smtp_sendmail (server w) f rc msg) /\
  (forall result,
     snd (send w self) = inr result ->
     exists f msg,
       In (Sendmail f (allRecipients self) msg) (fst (send w self)) /\
       smtp_sendmail (server w) f (allRecipients self) msg = inr result).
Proof.
  split; [|split].
  - destruct (send_log w self) as [(t & e & E & Ht)|
      (t0 & msg0 & msg & _ & Ht & _ & _ & E)]; rewrite E; simpl.
    + rewrite (no_smtp_filter is_sendmail t); [simpl; lia | | exact Ht].
      intros [] H; try discriminate; reflexivity.
    + rewrite List.filter_app, (no_smtp_filter is_sendmail t0); [| | exact Ht].
      * apply send_message_one_sendmail.
      * intros [] H; try discriminate; reflexivity.
  - intros f rc msg Hin. now apply send_sendmail in Hin.
  - intros result Hres.
    destruct (send_log w self) as [(t & e & E & Ht)|
      (t0 & msg0 & msg & _ & Ht & _ & _ & E)]; rewrite E in *; simpl in *;
      [discriminate|].
    apply send_message_result in Hres as (f & Hin & Hsm).
    exists f, msg. split; [|exact Hsm]. apply in_or_app. now right.
Qed.

Lemma send_ends_as_sendmail_witness :
  snd (send example_world example_email) = inr [].
Proof.
  destruct (send_ends_as_sendmail example_world example_email) as (_ & H & _).
  assert (S : exists msg,
             In (Sendmail "x@y.org" ["a@b.com"] msg)
                (fst (send example_world example_email))).
  { eexists. vm_compute. repeat (first [left; reflexivity | right]). }
  destruct S as (msg & Hin). rewrite (H _ _ _ Hin). reflexivity.
Defined.

(** X6. When [send] has got as far as connecting: if the connection is
    made, the last call of [send] is the [quit] of the session, whether
    [send] returns or raises; if the connection is refused, [send]
    raises what the connection raised, and makes no other call on the
    network. *)
Theorem session_is_closed w (self : Email) :
  In (first_connect self) (fst (send w self)) ->
  (smtp_connect (server w) = None -> last (fst (send w self)) = Some Quit) /\
  (forall err,
     smtp_connect (server w) = Some err ->
     snd (send w self) = inl err /\
     List.filter is_smtp (fst (send w self)) = [first_connect self]).
Proof.
  intros Hin.
  destruct (send_log w self) as [(t & e & E & Ht)|
    (t0 & msg0 & msg & _ & Ht & _ & _ & E)]; rewrite E in *; simpl in *.
  - exfalso. exact (no_smtp_not_in t (first_connect self) Ht eq_refl Hin).
  - split.
    + intros Hc. rewrite last_app.
      now rewrite (send_message_closes w self msg (allRecipients self) Hc).
    + intros err Hc.
      rewrite (send_message_refused w self msg (allRecipients self) err Hc).
      simpl. split; [reflexivity|].
      rewrite List.filter_app, (no_smtp_filter is_smtp t0);
        [reflexivity | auto | exact Ht].
Qed.

Lemma session_is_closed_witness :
  last (fst (send example_world example_email)) = Some Quit.
Proof.
  apply (session_is_closed example_world example_email).
  - vm_compute. repeat (first [left; reflexivity | right]).
  - reflexivity.
Defined.

Lemma send_message_login w (self : Email) msg all u p :
  In (Login u p) (fst (send_message w self msg all)) ->
  u = _username self /\ p = _password self /\
  nonempty (_username self) = true /\
  smtp_connect (server w) = None /\
  smtp_ehlo (server w) = None /\
  (if smtp_has_starttls (server w)
   then smtp_starttls (server w) = None /\
        In StartTLS (fst (send_message w self msg all))
   else smtp_ssl_connect (server w) = None /\
        In (ConnectSSL (_smtpServer self) (_smtpPort self) (_hostname self))
           (fst (send_message w self msg all))).
Proof.
  session_cases w self msg all; intros H;
    repeat (destruct H as [H|H]; try discriminate H);
    try contradiction;
    injection H as <- <-;
    repeat split; try reflexivity;
    repeat (first [left; reflexivity | right]).
Qed.

(** X7. Whenever [send] calls [login], it is with the user name and the
    password of the object, the user name is not empty, and the call
    comes after a call that secures the session and that has returned
    without an exception: [starttls] when the server announces the
    extension, the connection over SSL when it does not. What
    [starttls] returns is not looked at (line 143). *)
Theorem login_is_secured w (self : Email) u p :
  In (Login u p) (fst (send w self)) ->
  u = _username self /\ p = _password self /\
  nonempty (_username self) = true /\
  login_secured false (fst (send w self)) = true /\
  (if smtp_has_starttls (server w)
   then smtp_starttls (server w) = None /\ In StartTLS (fst (send w self))
   else smtp_ssl_connect (server w) = None /\
        In (ConnectSSL (_smtpServer self) (_smtpPort self) (_hostname self))
           (fst (send w self))).
Proof.
  intros Hin.
  destruct (send_log w self) as [(t & e & E & Ht)|
    (t0 & msg0 & msg & _ & Ht & _ & _ & E)]; rewrite E in *; simpl in *.
  - exfalso. exact (no_smtp_not_in t (Login u p) Ht eq_refl Hin).
  - apply in_app_or in Hin as [Hin|Hin];
      [exfalso; exact (no_smtp_not_in t0 (Login u p) Ht eq_refl Hin)|].
    destruct (send_message_login _ _ _ _ _ _ Hin)
      as (Hu & Hp & Hn & _ & _ & Hs).
    split; [exact Hu|]. split; [exact Hp|]. split; [exact Hn|].
    split.
    + rewrite login_secured_files; [|exact Ht].
      apply send_message_login_secured.
    + destruct (smtp_has_starttls (server w)); destruct Hs as [Hs Hi];
        (split; [exact Hs | apply in_or_app; now right]).
Qed.

Lemma login_is_secured_witness :
  In (Login "user" "secret") (fst (send example_world example_account)) /\
  In StartTLS (fst (send example_world example_account)).
Proof.
  assert (Hin : In (Login "user" "secret")
                   (fst (send example_world example_account))).
  { vm_compute. repeat (first [left; reflexivity | right]). }
  split; [exact Hin|].
  destruct (login_is_secured example_world example_account "user" "secret" Hin)
    as (_ & _ & _ & _ & Hs).
  exact (proj2 Hs).
Defined.

(** *** Headers *)

Lemma complete_header_headers (self : Email) (msg0 msg : mime) :
  complete_header self msg0 = inr msg ->
  exists f,
    _from self = Some f /\
    headers_of msg = headers_of msg0 ++ expected_headers self f /\
    preamble_of msg =
      Some "You need a MIME enabled mail reader to see this message".
Proof.
  unfold complete_header, get_from, expected_headers.
  destruct (_from self) as [f|]; [|discriminate].
  destruct msg0 as [mt st h p b].
  destruct (_replyTo self); intros H; injection H as <-;
    exists f; simpl; repeat split; auto;
    repeat rewrite <- app_assoc; reflexivity.
Qed.

(** X8. Lines 125-131 add to the message that lines 68-121 have
    assembled, after the headers that its construction has given it,
    the headers Subject, From, To, CC and BCC, in this order, then
    reply-to when a reply-to address is set, and nothing else. To, CC
    and BCC hold the addresses of their list joined by a comma and a
    space: CC and BCC are there with an empty value when their list is
    empty, and the addresses of [_bcc] are written in the message that
    is submitted. The preamble is set. *)
Theorem submitted_headers w (self : Email) (msg : mime) :
  submits w self msg ->
  exists f body wrapped t msg0,
    _from self = Some f /\
    create_message_part self = inr body /\
    wrap_for_attachments self body = inr wrapped /\
    add_attachments w self wrapped = (t, inr msg0) /\
    headers_of msg =
      headers_of msg0 ++
      [("Subject", _subject self, []);
       ("From", f, []);
       ("To", join ", " (_to self), []);
       ("CC", join ", " (_cc self), []);
       ("BCC", join ", " (_bcc self), [])] ++
      match _replyTo self with
      | Some address => [("reply-to", address, [])]
      | None => []
      end /\
    preamble_of msg =
      Some "You need a MIME enabled mail reader to see this message".
Proof.
  intros (f0 & rc & Hin).
  destruct (send_stages w self) as [(t & e & E & Ht)|
    (body & wrapped & t0 & msg0 & msg1 & _ & Hb & Hw & Ha & Ht & Hh & E)];
    rewrite E in Hin; simpl in Hin.
  - exfalso. exact (no_smtp_not_sent _ _ _ _ Ht Hin).
  - apply in_app_or in Hin as [Hin|Hin];
      [exfalso; exact (no_smtp_not_sent _ _ _ _ Ht Hin)|].
    apply send_message_sendmail in Hin as (-> & _ & _).
    apply complete_header_headers in Hh as (f & Hf & Hh & Hp).
    exists f, body, wrapped, t0, msg0. auto 10.
Qed.

Lemma submitted_headers_witness :
  exists msg msg0,
    submits example_world
      (after (addRecipient "hidden@b.com" "BCC") example_email) msg /\
    headers_of msg =
      headers_of msg0 ++
      [("Subject", "", []); ("From", "x@y.org", []); ("To", "a@b.com", []);
       ("CC", "", []); ("BCC", "hidden@b.com", [])].
Proof.
  set (self := after (addRecipient "hidden@b.com" "BCC") example_email).
  assert (S : exists msg, submits example_world self msg).
  { eexists. exists "x@y.org", ["a@b.com"; "hidden@b.com"]. vm_compute.
    repeat (first [left; reflexivity | right]). }
  destruct S as (msg & Hmsg).
  destruct (submitted_headers example_world self msg Hmsg)
    as (f & body & wrapped & t & msg0 & Hf & _ & _ & _ & Hh & _).
  exists msg, msg0. split; [exact Hmsg|].
  rewrite Hh. vm_compute in Hf. injection Hf as <-. reflexivity.
Defined.

(** *** When the session goes through *)

(** X9. The session of lines 136-159, with the message it is given:
    when the sender is set and the server accepts the connection and
    the greeting and, for an object with a user name, what secures the
    session, the second greeting and the login, [sendmail] is called
    once, with the sender, the recipients and the message; the session
    ends as [sendmail] does, and its last call is [quit]. *)
Theorem session_goes_through w (self : Email) msg all f :
  session_opens w self ->
  _from self = Some f ->
  List.filter is_sendmail (fst (send_message w self msg all)) =
    [Sendmail f all msg] /\
  snd (send_message w self msg all) = smtp_sendmail (server w) f all msg /\
  last (fst (send_message w self msg all)) = Some Quit.
Proof.
  intros Hopen Hf.
  destruct (send_message_opens w self msg all f Hopen Hf) as (Hin & Hout).
  split; [|split; [exact Hout|]].
  - destruct Hopen as (Hc & He & Hu).
    clear Hin Hout. revert Hc He Hu Hf.
    session_cases w self msg all; intros Hc He Hu Hf;
      try congruence;
      try (destruct (Hu eq_refl) as [Hs Hl];
           first [congruence | destruct Hs; congruence]);
      injection Hf as ->; reflexivity.
  - destruct Hopen as (Hc & _).
    exact (send_message_closes w self msg all Hc).
Qed.

Lemma session_goes_through_witness :
  List.filter is_sendmail
    (fst (send_message example_world example_account
            (MIMEText (Some "hello") "plain") ["a@b.com"])) =
    [Sendmail "x@y.org" ["a@b.com"] (MIMEText (Some "hello") "plain")] /\
  last (fst (send_message example_world example_account
               (MIMEText (Some "hello") "plain") ["a@b.com"])) = Some Quit.
Proof.
  destruct (session_goes_through example_world example_account
              (MIMEText (Some "hello") "plain") ["a@b.com"] "x@y.org")
    as (Hone & _ & Hlast).
  - repeat split; try reflexivity; discriminate.
  - reflexivity.
  - split; [exact Hone | exact Hlast].
Defined.

(** ** Attachments of every type *)

Lemma attachment_part_checked w fname attachname readable data :
  fs w !! fname = Some (RegularFile readable data) ->
  attachment_part w fname attachname =
  io_bind ([FsExists fname; FsIsFile fname], inr tt) (fun _ =>
    match split_slash (content_type w fname) with
    | [maintype; subtype] =>
        io_bind
          (if String.eqb maintype "text" then
             io_bind (read_file w fname "r")
               (fun data => io_ret (MIMEText (Some data) subtype))
           else if String.eqb maintype "image" then
             io_bind (read_file w fname "rb")
               (fun data => io_ret (MIMEImage data subtype))
           else if String.eqb maintype "audio" then
             io_bind (read_file w fname "rb")
               (fun data => io_ret (MIMEAudio data subtype))
           else
             io_bind (read_file w fname "rb")
               (fun data =>
                  io_ret (encode_base64
                            (set_payload data (MIMEBase maintype subtype)))))
          (fun part => io_ret (add_header "Content-Disposition" "attachment"
                                 [("filename", match attachname with
                                               | None => basename fname
                                               | Some name => name
                                               end)] part))
    | _ => io_raise (ValueError "need more than 1 value to unpack")
    end).
Proof.
  intros Hfs. destruct (regular_file_paths _ _ _ _ Hfs) as [He Hf].
  unfold attachment_part, os_path_exists, os_path_isfile, content_type.
  rewrite io_bind_value, He. cbn [negb]. rewrite io_bind_value, Hf. cbn [negb].
  rewrite io_bind_value.
  destruct (guess_type w fname) as [[ct|] [enc|]]; reflexivity.
Qed.

(** X10. The part for an attachment that is a readable regular file
    has the content type that was guessed for it (the binary type when
    none was, or one was with an encoding), the Content-Disposition
    header and the content of the file as payload. The file is opened
    once: as text for a text type, whose part is 7bit or 8bit; as
    binary for the others, whose part is encoded in Base64. *)
Theorem attachment_part_typed w fname attachname data maintype subtype :
  fs w !! fname = Some (RegularFile true data) ->
  split_slash (content_type w fname) = [maintype; subtype] ->
  attachment_part w fname attachname =
    ([FsExists fname; FsIsFile fname;
      FsOpen fname (if String.eqb maintype "text" then "r" else "rb")],
     inr (MIME maintype subtype
            [("Content-Disposition", "attachment",
              [("filename", match attachname with
                            | None => basename fname
                            | Some name => name
                            end)])]
            None
            (Payload
               (Some (if String.eqb maintype "text"
                      then encode_7or8bit (Some data) else Base64))
               (Some data)))).
Proof.
  intros Hfs Hsplit.
  rewrite (attachment_part_checked _ _ _ _ _ Hfs), Hsplit.
  unfold read_file. rewrite Hfs.
  destruct (String.eqb_spec maintype "text") as [->|Ht]; [reflexivity|].
  destruct (String.eqb_spec maintype "image") as [->|Hi]; [reflexivity|].
  destruct (String.eqb_spec maintype "audio") as [->|Ha]; reflexivity.
Qed.

Lemma attachment_part_typed_witness :
  attachment_part example_world "/srv/notes.txt" (Some "minutes") =
    ([FsExists "/srv/notes.txt"; FsIsFile "/srv/notes.txt";
      FsOpen "/srv/notes.txt" "r"],
     inr (MIME "text" "plain"
            [("Content-Disposition", "attachment", [("filename", "minutes")])]
            None (Payload (Some SevenBit) (Some "notes")))).
Proof.
  apply (attachment_part_typed example_world "/srv/notes.txt" (Some "minutes")
           "notes" "text" "plain"); reflexivity.
Defined.

Lemma split_slash_without_slash (s : string) :
  mem "/" s = false -> split_slash s = [s].
Proof.
  induction s as [|c s IH]; [reflexivity|]. intros H. cbn [mem] in H.
  apply orb_false_elim in H as [Hc Hs]. rewrite Ascii.eqb_sym in Hc.
  cbn [split_slash]. now rewrite Hc, (IH Hs).
Qed.

Lemma split_slash_length (s : string) :
  length (split_slash s) = 1 \/ length (split_slash s) = 2.
Proof.
  induction s as [|c s IH]; [now left|]. simpl.
  destruct (Ascii.eqb c "/"); [now right|].
  destruct (split_slash s) as [|x l]; [now left | exact IH].
Qed.

(** An attachment that cannot be attached makes its part fail. *)
Lemma unattachable_part w fname attachname :
  attachable w fname = false ->
  exists t e, attachment_part w fname attachname = (t, inl e).
Proof.
  intros H. unfold attachable in H.
  destruct (fs w !! fname) as [[readable data| ]|] eqn:Hfs.
  - rewrite (attachment_part_checked _ _ _ _ _ Hfs). rewrite io_bind_value.
    unfold read_file. rewrite Hfs.
    destruct (split_slash (content_type w fname))
      as [|maintype [|subtype [|x l]]]; simpl; eauto.
    destruct readable; [discriminate|].
    destruct (String.eqb maintype "text"), (String.eqb maintype "image"),
      (String.eqb maintype "audio"); simpl; eauto.
  - apply attachment_part_bad. unfold path_isfile. now rewrite Hfs.
  - apply attachment_part_bad. unfold path_isfile. now rewrite Hfs.
Qed.

Lemma io_fold_unattachable w (l : list (string * option string)) : forall msg,
  Exists (fun a => attachable w (fst a) = false) l ->
  exists t e, io_fold (attach_one w) l msg = (t, inl e).
Proof.
  induction l as [|[fname attachname] l IH]; intros msg H.
  - inversion H.
  - rewrite io_fold_cons.
    destruct (attach_one w msg (fname, attachname)) as [t0 [e|msg1]] eqn:H1.
    + rewrite io_bind_raise. eauto.
    + apply attach_one_inv in H1 as (part & Hp & Ha).
      inversion H as [? ? Hbad|? ? Hrest]; subst.
      * simpl in Hbad.
        destruct (unattachable_part w fname attachname Hbad) as (t & e & E).
        congruence.
      * destruct (IH msg1 Hrest) as (t & e & E).
        rewrite io_bind_value, E. simpl. eauto.
Qed.

Lemma attachment_part_unreadable w fname attachname data maintype subtype :
  fs w !! fname = Some (RegularFile false data) ->
  split_slash (content_type w fname) = [maintype; subtype] ->
  attachment_part w fname attachname =
    ([FsExists fname; FsIsFile fname; FsOpen fname (open_mode maintype)],
     inl (IOError fname)).
Proof.
  intros Hfs Hsplit.
  rewrite (attachment_part_checked _ _ _ _ _ Hfs), Hsplit.
  unfold read_file, open_mode. rewrite Hfs.
  destruct (String.eqb maintype "text"); [reflexivity|].
  destruct (String.eqb maintype "image"); [reflexivity|].
  destruct (String.eqb maintype "audio"); reflexivity.
Qed.

Lemma attachment_part_malformed_type w fname attachname readable data :
  fs w !! fname = Some (RegularFile readable data) ->
  mem "/" (content_type w fname) = false ->
  attachment_part w fname attachname =
    ([FsExists fname; FsIsFile fname],
     inl (ValueError "need more than 1 value to unpack")).
Proof.
  intros Hfs Hslash.
  rewrite (attachment_part_checked _ _ _ _ _ Hfs).
  now rewrite (split_slash_without_slash _ Hslash).
Qed.

(** X11. Of a message with a body and a recipient, whose attachments
    before a given one can all be attached: when that one is a regular
    file that cannot be read, [send] raises the [IOError] of [open];
    when it is a regular file whose guessed type has no slash, [send]
    raises the [ValueError] of the unpacking at line 95. More generally,
    an attachment that cannot be attached for any reason, anywhere in
    the list and whatever the rest of the message, makes [send] raise
    before any call on an SMTP session. *)
Theorem attachment_failures (w : World) (self : Email) :
  (forall pre fname attachname post,
     (_textBody self <> None \/ _htmlBody self <> None) ->
     _to self <> [] ->
     _attach self = pre ++ (fname, attachname) :: post ->
     Forall (fun a => attachable w (fst a) = true) pre ->
     (forall data maintype subtype,
        fs w !! fname = Some (RegularFile false data) ->
        split_slash (content_type w fname) = [maintype; subtype] ->
        exists t, send w self = (t, inl (IOError fname)) /\ no_smtp t) /\
     (forall readable data,
        fs w !! fname = Some (RegularFile readable data) ->
        mem "/" (content_type w fname) = false ->
        exists t,
          send w self =
            (t, inl (ValueError "need more than 1 value to unpack")) /\
          no_smtp t)) /\
  (Exists (fun a => attachable w (fst a) = false) (_attach self) ->
   exists t e, send w self = (t, inl e) /\ no_smtp t).
Proof.
  split.
  - intros pre fname attachname post Hb Hto E Hpre.
    pose proof (validate_message_ok self Hb Hto) as Hv.
    destruct (create_message_part_ok self) as (body & Hbody).
    pose proof (wrap_nonempty self body _ _ _ E) as Hw.
    split.
    + intros data maintype subtype Hfs Hsplit.
      destruct (add_attachments_first_failure w self
                  (MIME "multipart" "mixed" [] None (Parts [body]))
                  pre fname attachname post _ _ E Hpre eq_refl
                  (attachment_part_unreadable w fname attachname _ _ _
                     Hfs Hsplit))
        as (t0 & Ha & Hn).
      exists t0. split; [|exact Hn].
      exact (send_raises_in_attachments w self _ _ _ _ Hv Hbody Hw Ha).
    + intros readable data Hfs Hslash.
      destruct (add_attachments_first_failure w self
                  (MIME "multipart" "mixed" [] None (Parts [body]))
                  pre fname attachname post _ _ E Hpre eq_refl
                  (attachment_part_malformed_type w fname attachname _ _
                     Hfs Hslash))
        as (t0 & Ha & Hn).
      exists t0. split; [|exact Hn].
      exact (send_raises_in_attachments w self _ _ _ _ Hv Hbody Hw Ha).
  - intros Hbad.
    destruct (send_stages w self) as [H|
      (body & wrapped & t0 & msg0 & msg & _ & _ & _ & Ha & _)]; [exact H|].
    unfold add_attachments in Ha.
    destruct (io_fold_unattachable w (_attach self) wrapped Hbad) as (t & e & E).
    congruence.
Qed.

Lemma attachment_failures_witness :
  (exists t,
     send example_world
       (after (addAttachment (Some "/srv/locked.txt") None)
          (after (addAttachment (Some "/srv/report.bin") None) example_email)) =
       (t, inl (IOError "/srv/locked.txt")) /\ no_smtp t) /\
  (exists t e,
     send example_world
       (after (addAttachment (Some "/srv/report.bin") None)
          (after (addAttachment (Some "/srv/locked.txt") None) fresh)) =
       (t, inl e) /\ no_smtp t).
Proof.
  split.
  - destruct (attachment_failures example_world
                (after (addAttachment (Some "/srv/locked.txt") None)
                   (after (addAttachment (Some "/srv/report.bin") None)
                      example_email)))
      as (H & _).
    destruct (H [("/srv/report.bin", None)] "/srv/locked.txt" None [])
      as (Hlocked & _).
    + left. discriminate.
    + discriminate.
    + reflexivity.
    + repeat constructor.
    + apply (Hlocked "" "text" "plain"); reflexivity.
  - destruct (attachment_failures example_world
                (after (addAttachment (Some "/srv/report.bin") None)
                   (after (addAttachment (Some "/srv/locked.txt") None) fresh)))
      as (_ & H).
    apply H. left. reflexivity.
Defined.

(** *** The default file name *)

Lemma basename_no_slash (p : string) : mem "/" (basename p) = false.
Proof.
  induction p as [|c p IH]; [reflexivity|].
  cbn [basename]. destruct (mem "/" p) eqn:Hp; [exact IH|].
  destruct (Ascii.eqb_spec c "/") as [->|Hc]; [exact Hp|].
  cbn [mem]. rewrite Hp, orb_false_r.
  apply Ascii.eqb_neq. congruence.
Qed.

Lemma basename_suffix (p : string) :
  exists dir : string,
    p = dir +:+ basename p /\
    (dir = "" \/ exists d : string, dir = d +:+ "/").
Proof.
  induction p as [|c p (dir & E & Hdir)].
  - exists "". auto.
  - cbn [basename]. destruct (mem "/" p) eqn:Hp.
    + exists (String c dir). simpl. rewrite <- E. split; [reflexivity|].
      right. destruct Hdir as [->|(d & ->)].
      * exfalso. simpl in E. rewrite E, basename_no_slash in Hp. discriminate.
      * exists (String c d). reflexivity.
    + destruct (Ascii.eqb_spec c "/") as [->|Hc].
      * exists "/". split; [reflexivity|]. right. exists "". reflexivity.
      * exists "". auto.
Qed.

(** X12. Without a display name, the file name that a part announces
    is the end of the path of the attachment, from after its last
    slash: it holds no slash, and what comes before it in the path is
    nothing or ends with a slash. *)
Theorem default_filename w fname t part :
  attachment_part w fname None = (t, inr part) ->
  exists dir name : string,
    has_header ("Content-Disposition", "attachment", [("filename", name)]) part /\
    fname = dir +:+ name /\
    mem "/" name = false /\
    (dir = "" \/ exists d : string, dir = d +:+ "/").
Proof.
  intros H. apply attachment_part_disposition in H.
  destruct (basename_suffix fname) as (dir & E & Hdir).
  exists dir, (basename fname).
  split; [exact H|]. split; [exact E|].
  split; [apply basename_no_slash | exact Hdir].
Qed.

Lemma default_filename_witness :
  exists dir name : string,
    has_header ("Content-Disposition", "attachment", [("filename", name)])
      (MIME "application" "octet-stream"
         [("Content-Disposition", "attachment", [("filename", "report.bin")])]
         None (Payload (Some Base64) (Some "0101"))) /\
    "/srv/report.bin" = dir +:+ name /\ mem "/" name = false /\
    (dir = "" \/ exists d : string, dir = d +:+ "/").
Proof.
  apply (default_filename example_world "/srv/report.bin"
           [FsExists "/srv/report.bin"; FsIsFile "/srv/report.bin";
            FsOpen "/srv/report.bin" "rb"]).
  reflexivity.
Defined.

(** ** Lists of addresses and of paths *)

Lemma lstrip_all cs (l s : string) :
  all_in cs l = true -> lstrip cs (l +:+ s) = lstrip cs s.
Proof.
  unfold all_in. induction l as [|c l IH]; [reflexivity|]. simpl.
  intros H. apply andb_prop in H as [Hc Hl]. rewrite Hc. now apply IH.
Qed.

Lemma rstrip_all cs (r : string) : all_in cs r = true -> rstrip cs r = "".
Proof.
  unfold all_in. induction r as [|c r IH]; [reflexivity|]. simpl.
  intros H. apply andb_prop in H as [Hc Hr]. now rewrite (IH Hr), Hc.
Qed.

Lemma rstrip_app_all cs (s r : string) :
  all_in cs r = true -> rstrip cs (s +:+ r) = rstrip cs s.
Proof.
  intros Hr. induction s as [|c s IH].
  - simpl. now apply rstrip_all.
  - simpl. now rewrite IH.
Qed.

Lemma strip_app_all cs (s r : string) :
  all_in cs r = true -> strip cs (s +:+ r) = strip cs s.
Proof.
  intros Hr. unfold strip. induction s as [|c s IH].
  - simpl. pose proof (lstrip_all cs r "" Hr) as E.
    rewrite app_nil_r_s in E. now rewrite E.
  - simpl. destruct (mem c cs); [exact IH|].
    now apply (rstrip_app_all cs (String c s) r).
Qed.

Lemma strip_surrounded cs (l s r : string) :
  all_in cs l = true -> all_in cs r = true ->
  strip cs (l +:+ s +:+ r) = strip cs s.
Proof.
  intros Hl Hr. rewrite <- (strip_app_all cs s r Hr).
  unfold strip. now rewrite lstrip_all.
Qed.

Lemma strip_all cs (s : string) : all_in cs s = true -> strip cs s = "".
Proof.
  intros H. pose proof (strip_surrounded cs s "" "" H eq_refl) as E.
  simpl in E. now rewrite app_nil_r_s in E.
Qed.

Lemma re_split_attachment (s : string) :
  re_split ("[" +:+ _attachmentDelimiters +:+ "]\s*") s =
  inr (Re.split (delimiter _attachmentDelimiters) s).
Proof. reflexivity. Qed.

(** X13. Commas, line feeds and carriage returns around a list of
    addresses or of paths change nothing: [addRecipients] and
    [addAttachments] do with the list what they do with it once these
    are taken off its two ends. *)
Theorem surrounding_delimiters_ignored (self : Email) :
  (forall l s r type,
     all_in _addressDelimiters l = true ->
     all_in _addressDelimiters r = true ->
     addRecipients (l +:+ s +:+ r) type self = addRecipients s type self) /\
  (forall l s r,
     all_in _attachmentDelimiters l = true ->
     all_in _attachmentDelimiters r = true ->
     addAttachments (l +:+ s +:+ r) self = addAttachments s self).
Proof.
  split.
  - intros l s r type Hl Hr. unfold addRecipients.
    now rewrite strip_surrounded.
  - intros l s r Hl Hr. unfold addAttachments.
    now rewrite strip_surrounded.
Qed.

Lemma surrounding_delimiters_ignored_witness :
  addRecipients ("," +:+ "a@b.com" +:+ String LF ",") None fresh =
  addRecipients "a@b.com" None fresh.
Proof.
  destruct (surrounding_delimiters_ignored fresh) as (H & _).
  apply (H "," "a@b.com" (String LF ",") None); reflexivity.
Defined.

(** X14. A list of addresses that is empty, or made of commas, line
    feeds and carriage returns only, is no empty list of recipients for
    [addRecipients]: it calls [addRecipient] on the empty string, and
    so raises [InvalidAddress] and adds nothing. *)
Theorem addRecipients_of_nothing (self : Email) addressList type :
  all_in _addressDelimiters addressList = true ->
  addRecipients addressList type self =
    (inl (InvalidAddress (default "TO" type) ""), self).
Proof.
  intros H. rewrite addRecipients_loop. unfold address_fragments.
  rewrite (strip_all _ _ H).
  change (Re.split address_delimiter "") with [""]. simpl. unfold bind.
  now rewrite (addRecipient_invalid "" (default "TO" type) self eq_refl).
Qed.

Lemma addRecipients_of_nothing_witness :
  addRecipients "" (Some "CC") fresh = (inl (InvalidAddress "CC" ""), fresh) /\
  addRecipients (String "," (String LF "")) None fresh =
    (inl (InvalidAddress "TO" ""), fresh).
Proof.
  split.
  - apply (addRecipients_of_nothing fresh "" (Some "CC")). reflexivity.
  - apply (addRecipients_of_nothing fresh (String "," (String LF "")) None).
    reflexivity.
Defined.

(** *** A list written with a comma and a space *)

Lemma lstrip_none cs (s : string) : starts_with cs s = false -> lstrip cs s = s.
Proof. destruct s as [|c s]; [reflexivity|]. simpl. now intros ->. Qed.

Lemma rstrip_none cs (x : string) :
  nonempty x = true -> none_in cs x = true -> rstrip cs x = x.
Proof.
  unfold none_in. induction x as [|c x IH]; [discriminate|].
  intros _ H. simpl in H. apply andb_prop in H as [Hc Hx].
  apply negb_true_iff in Hc. simpl.
  destruct x as [|d x].
  - simpl. now rewrite Hc.
  - rewrite (IH eq_refl Hx). reflexivity.
Qed.

Lemma rstrip_app_none cs (s x : string) :
  nonempty x = true -> none_in cs x = true ->
  rstrip cs (s +:+ x) = s +:+ x.
Proof.
  intros Hn Hx. induction s as [|c s IH].
  - simpl. now apply rstrip_none.
  - simpl. rewrite IH. destruct (s +:+ x) as [|d y] eqn:E; [|reflexivity].
    destruct s; simpl in E; [subst x|]; discriminate.
Qed.

Lemma starts_with_app cs (x s : string) :
  nonempty x = true -> starts_with cs (x +:+ s) = starts_with cs x.
Proof. destruct x; [discriminate | reflexivity]. Qed.

Lemma none_in_starts_with cs (x : string) :
  none_in cs x = true -> starts_with cs x = false.
Proof.
  unfold none_in. destruct x as [|c x]; [reflexivity|]. simpl.
  intros H. apply andb_prop in H as [Hc _]. now apply negb_true_iff in Hc.
Qed.

Lemma join_cons sep x y (l : list string) :
  join sep (x :: y :: l) = x +:+ sep +:+ join sep (y :: l).
Proof. reflexivity. Qed.

Lemma join_starts_with cs sep x (l : list string) :
  nonempty x = true ->
  starts_with cs (join sep (x :: l)) = starts_with cs x.
Proof.
  intros Hx. destruct l as [|y l]; [reflexivity|].
  rewrite join_cons. now apply starts_with_app.
Qed.

(** The text that [join] makes ends with an element of the list. *)
Lemma join_suffix (P : string -> Prop) sep (l : list string) :
  l <> [] -> Forall P l ->
  exists s x : string, join sep l = s +:+ x /\ P x.
Proof.
  induction l as [|x l IH]; [congruence|]. intros _ H.
  inversion H as [|? ? Hx Hl]; subst.
  destruct l as [|y l].
  - exists "", x. auto.
  - destruct (IH ltac:(discriminate) Hl) as (s & z & E & Hz).
    exists (x +:+ sep +:+ s), z. split; [|exact Hz].
    rewrite join_cons, E. now rewrite !app_assoc_s.
Qed.

Lemma strip_join (l : list string) :
  l <> [] -> Forall listable l ->
  strip _addressDelimiters (join ", " l) = join ", " l.
Proof.
  intros Hne Hl. unfold strip.
  rewrite lstrip_none.
  - destruct (join_suffix listable ", " l Hne Hl) as (s & x & -> & Hn & Hx & _).
    now apply rstrip_app_none.
  - destruct l as [|x l]; [congruence|].
    inversion Hl as [|? ? (Hn & Hx & _) _]; subst.
    rewrite join_starts_with; [|exact Hn].
    now apply none_in_starts_with.
Qed.

Lemma Splits_join (l : list string) :
  l <> [] -> Forall listable l ->
  Splits _addressDelimiters (join ", " l) l.
Proof.
  induction l as [|x l IH]; [congruence|]. intros _ H.
  inversion H as [|? ? (Hn & Hx & Hw) Hl]; subst.
  destruct l as [|y l].
  - apply Splits_last. exact Hx.
  - rewrite join_cons.
    change (x +:+ ", " +:+ join ", " (y :: l))
      with (x +:+ String "," (" " +:+ join ", " (y :: l))).
    apply Splits_piece; try reflexivity; try exact Hx.
    + inversion Hl as [|? ? (Hny & _ & Hwy) _]; subst.
      rewrite join_starts_with; assumption.
    + apply IH; [discriminate | exact Hl].
Qed.

(** X15. A list of addresses written as [send] writes the To header,
    with a comma and a space between them, is read back by
    [addRecipients] as the same addresses in the same order, when each
    of them is valid, holds no comma, line feed or carriage return, and
    does not start with whitespace: they are all appended to the list
    of the kind. *)
Theorem addRecipients_of_join (self : Email) (l : list string) type :
  l <> [] ->
  Forall listable l ->
  Forall valid l ->
  addRecipients (join ", " l) type self =
    (inr tt, extend_recipients (default "TO" type) l self).
Proof.
  intros Hne Hl Hv.
  assert (E : address_fragments (join ", " l) = l).
  { symmetry. apply address_fragments_unique.
    rewrite (strip_join l Hne Hl). now apply Splits_join. }
  rewrite addRecipients_loop, E. now apply for_each_valid.
Qed.

Lemma addRecipients_of_join_witness :
  addRecipients "Ann <a@b.com>, c@d.com" (Some "BCC") fresh =
    (inr tt, set_bcc ["Ann <a@b.com>"; "c@d.com"] fresh).
Proof.
  apply (addRecipients_of_join fresh ["Ann <a@b.com>"; "c@d.com"] (Some "BCC")).
  - discriminate.
  - repeat constructor.
  - all_valid.
Defined.

(** *** Lists of paths *)

Lemma for_each_addAttachment (l : list string) : forall self : Email,
  for_each l (fun thisFile => addAttachment (Some thisFile) None) self =
  (inr tt,
   set_attach (_attach self ++ map (fun thisFile => (thisFile, None)) l) self).
Proof.
  induction l as [|x l IH]; intros self.
  - simpl. unfold ret, set_attach. rewrite app_nil_r. now destruct self.
  - simpl. unfold bind. simpl. rewrite IH. f_equal.
    unfold set_attach. simpl. now rewrite <- app_assoc.
Qed.

Lemma split_loop_nonempty its (n : nat) : forall b (piece s : string),
  Re.split_loop n its b piece s <> [].
Proof.
  induction n as [|n IH]; intros b piece s; simpl; [discriminate|].
  destruct (Re.search_from its b s) as [[pre r]|]; [|discriminate].
  destruct (Nat.ltb _ _); [discriminate|].
  destruct r as [|c r]; [discriminate | apply IH].
Qed.

Lemma split_nonempty its (s : string) : Re.split its s <> [].
Proof. apply split_loop_nonempty. Qed.

(** X16. [addAttachments] never raises. It trims line feeds and
    carriage returns from both ends of the list and cuts what is left
    at every such character, taken with the whitespace that follows it;
    a comma cuts nothing. It appends every fragment as a path without a
    display name, in order, and there is always at least one: for an
    empty list it is the empty path. *)
Theorem addAttachments_spec (self : Email) (filepathList : string) :
  exists fragments,
    (forall fs,
       Splits _attachmentDelimiters
              (strip _attachmentDelimiters filepathList) fs <->
       fs = fragments) /\
    fragments <> [] /\
    addAttachments filepathList self =
      (inr tt,
       set_attach
         (_attach self ++ map (fun thisFile => (thisFile, None)) fragments)
         self) /\
    (all_in _attachmentDelimiters filepathList = true -> fragments = [""]).
Proof.
  exists (attachment_fragments filepathList).
  split; [intros fs; apply Splits_split|].
  split; [apply split_nonempty|].
  split.
  - unfold addAttachments. rewrite re_split_attachment.
    apply for_each_addAttachment.
  - intros H. unfold attachment_fragments. now rewrite (strip_all _ _ H).
Qed.

Lemma addAttachments_spec_witness :
  addAttachments ("/srv/a,b.txt" +:+ String LF "  /srv/c.txt") fresh =
    (inr tt, set_attach [("/srv/a,b.txt", None); ("/srv/c.txt", None)] fresh) /\
  addAttachments "" fresh = (inr tt, set_attach [("", None)] fresh).
Proof.
  split.
  - destruct (addAttachments_spec fresh
                ("/srv/a,b.txt" +:+ String LF "  /srv/c.txt"))
      as (fragments & Hs & _ & E & _).
    assert (F : ["/srv/a,b.txt"; "/srv/c.txt"] = fragments).
    { apply Hs. apply Splits_split. vm_compute. reflexivity. }
    subst fragments. exact E.
  - destruct (addAttachments_spec fresh "") as (fragments & _ & _ & E & H).
    rewrite (H eq_refl) in E. exact E.
Defined.

(** ** The script *)

Lemma for_each_returns type (l : list string) : forall (self self' : Email) u,
  for_each l (fun a => addRecipient a type) self = (inr u, self') ->
  Forall valid l.
Proof.
  induction l as [|x l IH]; intros self self' u H; [constructor|].
  simpl in H. unfold bind in H.
  destruct (validateEmailAddress x) eqn:Hx.
  - rewrite (addRecipient_valid x type self Hx) in H.
    constructor; [exact Hx | exact (IH _ _ _ H)].
  - rewrite (addRecipient_invalid x type self Hx) in H. discriminate.
Qed.

Lemma addRecipients_returns addressList type (self self' : Email) u :
  addRecipients addressList type self = (inr u, self') ->
  Forall valid (address_fragments addressList).
Proof. rewrite addRecipients_loop. apply for_each_returns. Qed.

Lemma addRecipients_valid addressList type (self : Email) :
  Forall valid (address_fragments addressList) ->
  addRecipients addressList type self =
    (inr tt, extend_recipients (default "TO" type)
               (address_fragments addressList) self).
Proof. intros H. rewrite addRecipients_loop. now apply for_each_valid. Qed.

Lemma setFrom_valid address (self : Email) :
  valid address -> setFrom address self = (inr tt, set_from (Some address) self).
Proof. intros H. unfold setFrom. now rewrite H. Qed.

Lemma setReplyTo_valid address (self : Email) :
  valid address ->
  setReplyTo address self = (inr tt, set_replyTo (Some address) self).
Proof. intros H. unfold setReplyTo. now rewrite H. Qed.

Lemma addAttachments_returns filepathList (self : Email) :
  addAttachments filepathList self =
    (inr tt,
     set_attach
       (_attach self ++
        map (fun thisFile => (thisFile, None)) (attachment_fragments filepathList))
       self).
Proof.
  unfold addAttachments. rewrite re_split_attachment.
  apply for_each_addAttachment.
Qed.

Lemma bind_returns {A B} (m : M A) (f : A -> M B) (self self' : Email) a :
  m self = (inr a, self') -> bind m f self = f a self'.
Proof. intros H. unfold bind. now rewrite H. Qed.

Lemma bind_inv {A B} (m : M A) (f : A -> M B) (self self' : Email) b :
  bind m f self = (inr b, self') ->
  exists a self1, m self = (inr a, self1) /\ f a self1 = (inr b, self').
Proof.
  unfold bind. destruct (m self) as [[e|a] self1]; [discriminate|]. eauto.
Qed.

Lemma compose_accepted (v : settings) :
  settings_accepted v ->
  compose v (__init__ (mServer v) (mPort v) (mHostname v) (mUsername v)
               (mPassword v) (mDebugLevel v)) =
    (inr tt, composed v).
Proof.
  intros (Hfrom & Hto & Hcc & Hbcc & Hreply).
  unfold compose, composed, if_nonempty, bind.
  rewrite (setFrom_valid _ _ Hfrom); cbv beta iota.
  rewrite (addRecipients_valid _ None _ Hto); cbv beta iota.
  destruct (nonempty (mCC v)); cbn [when];
    [rewrite (addRecipients_valid _ (Some "CC") _ (Hcc eq_refl))|unfold ret at 1];
    cbv beta iota;
    (destruct (nonempty (mBCC v)); cbn [when];
       [rewrite (addRecipients_valid _ (Some "BCC") _ (Hbcc eq_refl))
       |unfold ret at 1]);
    cbv beta iota;
    (destruct (nonempty (mReplyTo v)); cbn [when];
       [rewrite (setReplyTo_valid _ _ (Hreply eq_refl))|unfold ret at 1]);
    cbv beta iota;
    unfold setSubject, setTextBody, setHtmlBody, modify, ret; cbv beta iota;
    destruct (nonempty (mBodyText v)); cbn [when]; unfold ret; cbv beta iota;
    destruct (nonempty (mBodyHTML v)); cbn [when]; unfold ret; cbv beta iota;
    destruct (nonempty (mFile v)); cbn [when]; unfold ret; cbv beta iota;
    try rewrite addAttachments_returns; reflexivity.
Qed.

Lemma for_each_raises type (l : list string) : forall (self self' : Email) e,
  for_each l (fun a => addRecipient a type) self = (inl e, self') ->
  exists address,
    In address l /\ validateEmailAddress address = false /\
    e = InvalidAddress type address.
Proof.
  induction l as [|x l IH]; intros self self' e H; [discriminate|].
  simpl in H. unfold bind in H.
  destruct (validateEmailAddress x) eqn:Hx.
  - rewrite (addRecipient_valid x type self Hx) in H.
    destruct (IH _ _ _ H) as (a & Ha & Hv & He).
    exists a. split; [now right | now split].
  - rewrite (addRecipient_invalid x type self Hx) in H.
    exists x. split; [now left|]. split; [exact Hx | congruence].
Qed.

Lemma addRecipients_raises addressList type (self self' : Email) e :
  addRecipients addressList type self = (inl e, self') ->
  exists address,
    In address (address_fragments addressList) /\
    validateEmailAddress address = false /\
    e = InvalidAddress (default "TO" type) address.
Proof. rewrite addRecipients_loop. apply for_each_raises. Qed.

Lemma setFrom_cases address (self : Email) :
  (valid address /\ setFrom address self = (inr tt, set_from (Some address) self)) \/
  (validateEmailAddress address = false /\
   setFrom address self = (inl (InvalidAddress "FROM" address), self)).
Proof.
  unfold valid, setFrom.
  destruct (validateEmailAddress address); [left | right]; split; reflexivity.
Qed.

Lemma setReplyTo_cases address (self : Email) :
  (valid address /\
   setReplyTo address self = (inr tt, set_replyTo (Some address) self)) \/
  (validateEmailAddress address = false /\
   setReplyTo address self = (inl (InvalidAddress "REPLY-TO" address), self)).
Proof.
  unfold valid, setReplyTo.
  destruct (validateEmailAddress address); [left | right]; split; reflexivity.
Qed.

Lemma addRecipients_cases addressList type (self : Email) :
  (Forall valid (address_fragments addressList) /\
   addRecipients addressList type self =
     (inr tt, extend_recipients (default "TO" type)
                (address_fragments addressList) self)) \/
  (exists address self',
     In address (address_fragments addressList) /\
     validateEmailAddress address = false /\
     addRecipients addressList type self =
       (inl (InvalidAddress (default "TO" type) address), self')).
Proof.
  destruct (addRecipients addressList type self) as [[e|[]] self'] eqn:E.
  - right. destruct (addRecipients_raises _ _ _ _ _ E) as (a & Ha & Hv & ->).
    exists a, self'. auto.
  - left. pose proof (addRecipients_returns _ _ _ _ _ E) as H.
    split; [exact H|]. rewrite <- E. now apply addRecipients_valid.
Qed.

(** What [compose] does on any object: it returns exactly when the
    settings are accepted, and otherwise raises for an address that
    [validateEmailAddress] refuses. *)
Lemma compose_cases (v : settings) (self : Email) :
  (settings_accepted v /\ exists self', compose v self = (inr tt, self')) \/
  (~ settings_accepted v /\
   exists kind address self',
     validateEmailAddress address = false /\
     compose v self = (inl (InvalidAddress kind address), self')).
Proof.
  unfold compose, settings_accepted, bind.
  destruct (setFrom_cases (mFrom v) self) as [[Hfrom ->]|[Hfrom ->]];
    [|right; split;
      [unfold valid; intros (H & _); congruence | eauto 6]].
  destruct (addRecipients_cases (mTo v) None (set_from (Some (mFrom v)) self))
    as [[Hto ->]|(a & s' & Ha & Hv & ->)];
    [|right; split;
      [intros (_ & H & _); rewrite List.Forall_forall in H;
       specialize (H a Ha); unfold valid in H; congruence
      | eauto 6]].
  set (s2 := extend_recipients _ _ _).
  assert (Hcc : (exists s3,
                   (nonempty (mCC v) = true -> Forall valid (address_fragments (mCC v))) /\
                   when (nonempty (mCC v)) (addRecipients (mCC v) (Some "CC")) s2
                   = (inr tt, s3)) \/
                (nonempty (mCC v) = true /\
                 exists a s3, In a (address_fragments (mCC v)) /\
                   validateEmailAddress a = false /\
                   when (nonempty (mCC v)) (addRecipients (mCC v) (Some "CC")) s2
                   = (inl (InvalidAddress "CC" a), s3))).
  { destruct (nonempty (mCC v)); cbn [when].
    - destruct (addRecipients_cases (mCC v) (Some "CC") s2)
        as [[H ->]|(a & s' & Ha & Hv & ->)];
        [left; eauto | right; split; [reflexivity | eauto 6]].
    - left. exists s2. split; [discriminate | reflexivity]. }
  destruct Hcc as [(s3 & Hcc & ->)|(Hn & a & s3 & Ha & Hv & ->)];
    [|right; split;
      [intros (_ & _ & H & _); specialize (H Hn);
       rewrite List.Forall_forall in H;
       specialize (H a Ha); unfold valid in H; congruence
      | eauto 6]].
  assert (Hbcc : (exists s4,
                   (nonempty (mBCC v) = true -> Forall valid (address_fragments (mBCC v))) /\
                   when (nonempty (mBCC v)) (addRecipients (mBCC v) (Some "BCC")) s3
                   = (inr tt, s4)) \/
                (nonempty (mBCC v) = true /\
                 exists a s4, In a (address_fragments (mBCC v)) /\
                   validateEmailAddress a = false /\
                   when (nonempty (mBCC v)) (addRecipients (mBCC v) (Some "BCC")) s3
                   = (inl (InvalidAddress "BCC" a), s4))).
  { destruct (nonempty (mBCC v)); cbn [when].
    - destruct (addRecipients_cases (mBCC v) (Some "BCC") s3)
        as [[H ->]|(a & s' & Ha & Hv & ->)];
        [left; eauto | right; split; [reflexivity | eauto 6]].
    - left. exists s3. split; [discriminate | reflexivity]. }
  destruct Hbcc as [(s4 & Hbcc & ->)|(Hn & a & s4 & Ha & Hv & ->)];
    [|right; split;
      [intros (_ & _ & _ & H & _); specialize (H Hn);
       rewrite List.Forall_forall in H;
       specialize (H a Ha); unfold valid in H; congruence
      | eauto 6]].
  assert (Hreply : (exists s5,
                   (nonempty (mReplyTo v) = true -> valid (mReplyTo v)) /\
                   when (nonempty (mReplyTo v)) (setReplyTo (mReplyTo v)) s4
                   = (inr tt, s5)) \/
                (nonempty (mReplyTo v) = true /\
                 validateEmailAddress (mReplyTo v) = false /\
                 when (nonempty (mReplyTo v)) (setReplyTo (mReplyTo v)) s4
                   = (inl (InvalidAddress "REPLY-TO" (mReplyTo v)), s4))).
  { destruct (nonempty (mReplyTo v)); cbn [when].
    - destruct (setReplyTo_cases (mReplyTo v) s4) as [[H ->]|[H ->]];
        [left; eauto | right; auto].
    - left. exists s4. split; [discriminate | reflexivity]. }
  destruct Hreply as [(s5 & Hreply & ->)|(Hn & Hv & ->)];
    [|right; split;
      [intros (_ & _ & _ & _ & H); specialize (H Hn);
       unfold valid in H; congruence
      | eauto 6]].
  left. split; [auto|].
  unfold setSubject, setTextBody, setHtmlBody, modify.
  destruct (nonempty (mBodyText v)); cbn [when]; unfold ret;
    destruct (nonempty (mBodyHTML v)); cbn [when]; unfold ret;
    destruct (nonempty (mFile v)); cbn [when]; unfold ret;
    try rewrite addAttachments_returns; eauto.
Qed.

Lemma eqb_empty (s : string) : String.eqb s "" = negb (nonempty s).
Proof. destruct s; reflexivity. Qed.

Lemma composed_passes (v : settings) :
  nonempty (mBodyText v) = true \/ nonempty (mBodyHTML v) = true ->
  validate_message (composed v) = io_ret tt.
Proof.
  intros Hbody. unfold validate_message, composed, if_nonempty. cbn [_textBody _htmlBody _to].
  assert (Hto : Nat.eqb (length (address_fragments (mTo v))) 0 = false).
  { pose proof (split_nonempty address_delimiter
                  (strip _addressDelimiters (mTo v))) as H.
    unfold address_fragments.
    destruct (Re.split _ _); [congruence | reflexivity]. }
  rewrite Hto.
  destruct Hbody as [-> | ->];
    [|destruct (nonempty (mBodyText v))]; reflexivity.
Qed.

(** X17. The script with a body and with addresses that all pass
    [validateEmailAddress] (the sender, every fragment of the TO list,
    those of the CC and BCC lists when they are given, the reply-to
    address when it is given): it prints what [send] gives on the object
    that the settings describe, result or error, and on that object the
    two checks that open [send] pass. *)
Theorem script_sends w (v : settings) :
  nonempty (mBodyText v) = true \/ nonempty (mBodyHTML v) = true ->
  settings_accepted v ->
  script w v = (fst (send w (composed v)), inr (snd (send w (composed v)))) /\
  validate_message (composed v) = io_ret tt.
Proof.
  intros Hbody Hv. split; [|now apply composed_passes].
  unfold script, create_and_send. rewrite !eqb_empty.
  replace (negb (nonempty (mBodyHTML v)) && negb (nonempty (mBodyText v)))
    with false by (destruct Hbody as [-> | ->];
                   [destruct (nonempty (mBodyHTML v))|]; reflexivity).
  cbv zeta. rewrite (compose_accepted v Hv).
  destruct (send w (composed v)); reflexivity.
Qed.

Lemma script_sends_witness :
  script example_world example_settings =
    (fst (send example_world (composed example_settings)),
     inr (snd (send example_world (composed example_settings)))) /\
  validate_message (composed example_settings) = io_ret tt.
Proof.
  apply script_sends.
  - left. reflexivity.
  - unfold settings_accepted, example_settings; cbn [mFrom mTo mCC mBCC mReplyTo].
    split; [vm_compute; reflexivity|].
    split; [all_valid|].
    split; [discriminate|].
    split; [intros _; all_valid | discriminate].
Defined.

(** X18. The script with a body and with an address that
    [validateEmailAddress] refuses among those it sets: it prints the
    message of an invalid address, for an address that is refused, and
    it has read no file and opened no connection. *)
Theorem script_rejects w (v : settings) :
  nonempty (mBodyText v) = true \/ nonempty (mBodyHTML v) = true ->
  ~ settings_accepted v ->
  exists kind address,
    validateEmailAddress address = false /\
    script w v = ([], inr (inl (InvalidAddress kind address))).
Proof.
  intros Hbody Hv.
  unfold script, create_and_send. rewrite !eqb_empty.
  replace (negb (nonempty (mBodyHTML v)) && negb (nonempty (mBodyText v)))
    with false by (destruct Hbody as [-> | ->];
                   [destruct (nonempty (mBodyHTML v))|]; reflexivity).
  cbv zeta.
  destruct (compose_cases v (__init__ (mServer v) (mPort v) (mHostname v)
                               (mUsername v) (mPassword v) (mDebugLevel v)))
    as [[Ha _]|[_ (kind & address & self' & Hbad & ->)]]; [contradiction|].
  exists kind, address. split; [exact Hbad | reflexivity].
Qed.

Lemma script_rejects_witness :
  exists kind address,
    validateEmailAddress address = false /\
    script example_world rejected_settings =
      ([], inr (inl (InvalidAddress kind address))).
Proof.
  apply script_rejects.
  - left. reflexivity.
  - intros (_ & _ & H & _). specialize (H eq_refl).
    apply List.Forall_inv in H. vm_compute in H. discriminate.
Defined.
